(** * SafetySpeak: the translate-then-speak pipeline and the audio playback
      controller of the [App] component.

    The component is a single-threaded, event-driven program: a handler runs
    until it awaits a promise.  The embedding follows that shape:

    - the component's state ([useState] cells), its refs and the Web Audio
      objects it created live in one [World];
    - a handler is a computation in the [Js] monad (state plus thrown
      values), written statement by statement like the source;
    - an awaited collaborator call (translation, speech synthesis, text
      extraction) parks a [Task]; the environment later settles it with an
      outcome, which runs the rest of the handler;
    - the audio device answers at once: [resume], [suspend] and [close]
      take effect at the call, so awaiting them does not suspend a handler
      and every transport operation runs to completion before the next;
    - what the operator can do is an [Event], guarded by the condition under
      which the control is rendered or enabled. *)

From Stdlib Require Import List NArith Lia Bool Arith.

From stdpp Require Import base list.

Import ListNotations.

Set Warnings "-abstract-large-number".

(** ** Strings

    A JavaScript string is a sequence of UTF-16 code units; [length] counts
    code units and [slice] cuts between them. *)

Definition code_unit := N.

Definition jsstring := list code_unit.

(** [WhiteSpace] and [LineTerminator] code points of ECMAScript, the ones
    [String.prototype.trim] strips. *)
Definition is_js_whitespace (c : code_unit) : bool :=
  ((c =? 9) || (c =? 10) || (c =? 11) || (c =? 12) || (c =? 13) || (c =? 32)
   || (c =? 160) || (c =? 5760) || ((8192 <=? c) && (c <=? 8202))
   || (c =? 8232) || (c =? 8233) || (c =? 8239) || (c =? 8287)
   || (c =? 12288) || (c =? 65279))%N.

Fixpoint trim_start (s : jsstring) : jsstring :=
  match s with
  | [] => []
  | c :: s' => if is_js_whitespace c then trim_start s' else s
  end.

Definition trim (s : jsstring) : jsstring :=
  rev (trim_start (rev (trim_start s))).

(** Truthiness of a string: only the empty string is falsy. *)
Definition truthy (s : jsstring) : bool :=
  match s with [] => false | _ :: _ => true end.

(** [s.slice(0, n)] for [0 <= n]. *)
Definition slice0 (n : nat) (s : jsstring) : jsstring := firstn n s.

(** ** types.ts *)

Inductive TargetLanguage := ENGLISH | CHINESE | VIETNAMESE | RUSSIAN | UZBEK.

(** A decoded [AudioBuffer] object, by identity. *)
Inductive AudioBuffer := Buffer (id : nat).

Record TranslationResult := {
  originalText : jsstring;
  translatedText : jsstring;
  targetLanguage : TargetLanguage;
  audioBuffer : option AudioBuffer
}.

(** A thrown value.  Collaborators throw an [Error] whose [message] may be
    missing; the Web Audio API throws (or rejects with) a [DOMException]. *)
Inductive JsError :=
| ServiceError (message : option jsstring)
| InvalidStateError
| TypeError.

(** The texts shown in the notice box.  Each constructor is one string
    literal or template of the source; the parameters are the interpolated
    values. *)
Inductive Notice :=
| NoticeEmptyInput                      (* line 55 *)
| NoticeInputTooLong (len : nat)        (* line 62 *)
| NoticeSpeechFailed (audioErr : JsError) (* line 107 *)
| NoticeThrown (err : JsError)          (* lines 115, 220: err.message *)
| NoticeProcessingFailed                (* line 115: the fallback text *)
| NoticeBadFileType                     (* line 191 *)
| NoticeFileTooLarge                    (* line 196 *)
| NoticeFileTruncated                   (* line 209 *)
| NoticeFileReadFailed.                 (* line 220: the fallback text *)

Record AppState := {
  inputText : jsstring;
  selectedLanguage : TargetLanguage;
  isProcessing : bool;
  result : option TranslationResult;
  error : option Notice
}.

Definition with_inputText (v : jsstring) (s : AppState) : AppState :=
  {| inputText := v; selectedLanguage := selectedLanguage s;
     isProcessing := isProcessing s; result := result s; error := error s |}.

Definition with_selectedLanguage (v : TargetLanguage) (s : AppState) : AppState :=
  {| inputText := inputText s; selectedLanguage := v;
     isProcessing := isProcessing s; result := result s; error := error s |}.

Definition with_isProcessing (v : bool) (s : AppState) : AppState :=
  {| inputText := inputText s; selectedLanguage := selectedLanguage s;
     isProcessing := v; result := result s; error := error s |}.

Definition with_result (v : option TranslationResult) (s : AppState) : AppState :=
  {| inputText := inputText s; selectedLanguage := selectedLanguage s;
     isProcessing := isProcessing s; result := v; error := error s |}.

Definition with_error (v : option Notice) (s : AppState) : AppState :=
  {| inputText := inputText s; selectedLanguage := selectedLanguage s;
     isProcessing := isProcessing s; result := result s; error := v |}.

Definition with_audioBuffer (b : option AudioBuffer) (r : TranslationResult)
  : TranslationResult :=
  {| originalText := originalText r; translatedText := translatedText r;
     targetLanguage := targetLanguage r; audioBuffer := b |}.

Definition MAX_INPUT_LENGTH : nat := 10000.

(** The limit is never unfolded by [simpl]: proofs treat it as a number. *)
Opaque MAX_INPUT_LENGTH.

(** ** The Web Audio objects

    The browser side of the program: audio contexts and buffer source
    nodes, addressed by the position at which they were created. *)

Inductive AudioContextState := Suspended | Running | Closed.

Record AudioContext := {
  ctx_state : AudioContextState;
  sampleRate : N
}.

(** The one function the source ever installs as [onended] (lines 132-136). *)
Inductive Handler := NaturalEnd.

Record SourceNode := {
  src_context : nat;
  src_buffer : option AudioBuffer;
  src_connected : bool;
  onended : option Handler;
  src_started : bool;
  src_stopped : bool;
  src_ended : bool            (* the [ended] event has been dispatched *)
}.

(** A source occupies the output device from [start()] until it is stopped
    or reaches its end. *)
Definition sounding (s : SourceNode) : bool :=
  src_started s && negb (src_stopped s) && negb (src_ended s).

Inductive DeviceCall :=
| NewAudioContext (rate : N)
| CtxResume (c : nat)
| CtxSuspend (c : nat)
| CtxClose (c : nat)
| CreateBufferSource (c : nat)
| SetBuffer (h : nat) (b : AudioBuffer)
| Connect (h : nat)
| SetOnended (h : nat) (f : option Handler)
| SourceStart (h : nat)
| SourceStop (h : nat).

(** ** Collaborators and suspended handlers *)

(** An uploaded file.  [isValidFileType] and [isValidFileSize] live in
    services/fileUtils, which is not part of the sources at hand; a file
    carries their verdicts. *)
Record File := {
  file_id : nat;
  validFileType : bool;
  validFileSize : bool
}.

Inductive Call :=
| TranslateSafetyText (text : jsstring) (lang : TargetLanguage)
| GenerateSpeech (text : jsstring) (audioCtx : nat)
| ExtractTextFromFile (f : File).

(** A handler parked at an [await], with the variables its continuation
    still reads. *)
Inductive Task :=
| AwaitTranslation (text : jsstring) (lang : TargetLanguage)
| AwaitSpeech (translated : jsstring) (audioCtx : nat)
| AwaitExtraction (f : File)
| Settled.

(** ** The world *)

Record World := {
  state : AppState;
  isExtracting : bool;
  isPlaying : bool;
  isPaused : bool;
  audioContextRef : option nat;
  audioSourceRef : option nat;
  contexts : list AudioContext;
  sources : list SourceNode;
  tasks : list Task;
  calls : list Call;
  devlog : list DeviceCall;
  unhandled : list JsError
}.

Definition upd_state (f : AppState -> AppState) (w : World) : World :=
  let '(Build_World a b c d e g h i j k l m) := w in
  Build_World (f a) b c d e g h i j k l m.

Definition upd_isExtracting (v : bool) (w : World) : World :=
  let '(Build_World a b c d e g h i j k l m) := w in
  Build_World a v c d e g h i j k l m.

Definition upd_isPlaying (v : bool) (w : World) : World :=
  let '(Build_World a b c d e g h i j k l m) := w in
  Build_World a b v d e g h i j k l m.

Definition upd_isPaused (v : bool) (w : World) : World :=
  let '(Build_World a b c d e g h i j k l m) := w in
  Build_World a b c v e g h i j k l m.

Definition upd_audioContextRef (v : option nat) (w : World) : World :=
  let '(Build_World a b c d e g h i j k l m) := w in
  Build_World a b c d v g h i j k l m.

Definition upd_audioSourceRef (v : option nat) (w : World) : World :=
  let '(Build_World a b c d e g h i j k l m) := w in
  Build_World a b c d e v h i j k l m.

Definition upd_contexts (f : list AudioContext -> list AudioContext) (w : World) : World :=
  let '(Build_World a b c d e g h i j k l m) := w in
  Build_World a b c d e g (f h) i j k l m.

Definition upd_sources (f : list SourceNode -> list SourceNode) (w : World) : World :=
  let '(Build_World a b c d e g h i j k l m) := w in
  Build_World a b c d e g h (f i) j k l m.

Definition upd_tasks (f : list Task -> list Task) (w : World) : World :=
  let '(Build_World a b c d e g h i j k l m) := w in
  Build_World a b c d e g h i (f j) k l m.

Definition upd_calls (f : list Call -> list Call) (w : World) : World :=
  let '(Build_World a b c d e g h i j k l m) := w in
  Build_World a b c d e g h i j (f k) l m.

Definition upd_devlog (f : list DeviceCall -> list DeviceCall) (w : World) : World :=
  let '(Build_World a b c d e g h i j k l m) := w in
  Build_World a b c d e g h i j k (f l) m.

Definition upd_unhandled (f : list JsError -> list JsError) (w : World) : World :=
  let '(Build_World a b c d e g h i j k l m) := w in
  Build_World a b c d e g h i j k l (f m).

(** The component as first rendered (lines 24-41). *)
Definition initial : World :=
  {| state := {| inputText := []; selectedLanguage := CHINESE;
                 isProcessing := false; result := None; error := None |};
     isExtracting := false; isPlaying := false; isPaused := false;
     audioContextRef := None; audioSourceRef := None;
     contexts := []; sources := []; tasks := []; calls := [];
     devlog := []; unhandled := [] |}.

(** ** The [Js] monad: a statement either completes or throws *)

Inductive Completion (A : Type) :=
| Normal (a : A)
| Throws (e : JsError).

Arguments Normal {A} a.

Arguments Throws {A} e.

Definition Js (A : Type) : Type := World -> Completion A * World.

Definition ret {A} (a : A) : Js A := fun w => (Normal a, w).

Definition bind {A B} (m : Js A) (k : A -> Js B) : Js B :=
  fun w =>
    match m w with
    | (Normal a, w') => k a w'
    | (Throws e, w') => (Throws e, w')
    end.

Notation "x <- c ;; k" := (bind c (fun x => k))
  (at level 100, c at next level, right associativity).

Notation "c ;;; k" := (bind c (fun _ => k))
  (at level 100, right associativity).

Definition throw {A} (e : JsError) : Js A := fun w => (Throws e, w).

(** [try { body } catch (e) { handler e }] *)
Definition try_catch {A} (body : Js A) (handler : JsError -> Js A) : Js A :=
  fun w =>
    match body w with
    | (Normal a, w') => (Normal a, w')
    | (Throws e, w') => handler e w'
    end.

(** A promise nobody awaits: a rejection does not reach the caller, the
    browser reports it as an unhandled rejection. *)
Definition detached (p : Js unit) : Js unit :=
  fun w =>
    match p w with
    | (Normal _, w') => (Normal tt, w')
    | (Throws e, w') => (Normal tt, upd_unhandled (fun l => l ++ [e]) w')
    end.

Definition read {A} (f : World -> A) : Js A := fun w => (Normal (f w), w).

Definition modify (f : World -> World) : Js unit := fun w => (Normal tt, f w).

(** The world a computation leaves behind. *)
Definition exec {A} (m : Js A) (w : World) : World := snd (m w).

Definition setState (f : AppState -> AppState) : Js unit := modify (upd_state f).

Definition setIsExtracting (v : bool) : Js unit := modify (upd_isExtracting v).

Definition setIsPlaying (v : bool) : Js unit := modify (upd_isPlaying v).

Definition setIsPaused (v : bool) : Js unit := modify (upd_isPaused v).

Definition log_device (c : DeviceCall) : Js unit :=
  modify (upd_devlog (fun l => l ++ [c])).

Definition log_call (c : Call) : Js unit :=
  modify (upd_calls (fun l => l ++ [c])).

(** ** Web Audio primitives

    The behaviour of the browser objects the component calls into, after the
    Web Audio API: a context is created running; [resume], [suspend] and
    [close] fail with [InvalidStateError] on a closed context; a source can
    be started once, and [stop] before [start] throws.  A state change takes
    effect at the call.  Every call is recorded in [devlog]. *)

Definition the_context (c : nat) : Js AudioContext :=
  fun w =>
    match contexts w !! c with
    | Some x => (Normal x, w)
    | None => (Throws TypeError, w)
    end.

Definition the_source (h : nat) : Js SourceNode :=
  fun w =>
    match sources w !! h with
    | Some s => (Normal s, w)
    | None => (Throws TypeError, w)
    end.

Definition set_ctx_state (st : AudioContextState) (x : AudioContext) : AudioContext :=
  {| ctx_state := st; sampleRate := sampleRate x |}.

Definition newAudioContext (rate : N) : Js nat :=
  c <- read (fun w => length (contexts w)) ;;
  log_device (NewAudioContext rate) ;;;
  modify (upd_contexts (fun l => l ++ [{| ctx_state := Running; sampleRate := rate |}])) ;;;
  ret c.

Definition ctx_switch (call : DeviceCall) (target : AudioContextState) (c : nat)
  : Js unit :=
  log_device call ;;;
  x <- the_context c ;;
  match ctx_state x with
  | Closed => throw InvalidStateError
  | _ => modify (upd_contexts (alter (set_ctx_state target) c))
  end.

Definition ctx_resume (c : nat) : Js unit := ctx_switch (CtxResume c) Running c.

Definition ctx_suspend (c : nat) : Js unit := ctx_switch (CtxSuspend c) Suspended c.

Definition ctx_close (c : nat) : Js unit := ctx_switch (CtxClose c) Closed c.

Definition fresh_source (c : nat) : SourceNode :=
  {| src_context := c; src_buffer := None; src_connected := false;
     onended := None; src_started := false; src_stopped := false;
     src_ended := false |}.

Definition createBufferSource (c : nat) : Js nat :=
  log_device (CreateBufferSource c) ;;;
  _ <- the_context c ;;
  h <- read (fun w => length (sources w)) ;;
  modify (upd_sources (fun l => l ++ [fresh_source c])) ;;;
  ret h.

Definition put_buffer (b : AudioBuffer) (s : SourceNode) : SourceNode :=
  {| src_context := src_context s; src_buffer := Some b;
     src_connected := src_connected s; onended := onended s;
     src_started := src_started s; src_stopped := src_stopped s;
     src_ended := src_ended s |}.

Definition put_connected (s : SourceNode) : SourceNode :=
  {| src_context := src_context s; src_buffer := src_buffer s;
     src_connected := true; onended := onended s;
     src_started := src_started s; src_stopped := src_stopped s;
     src_ended := src_ended s |}.

Definition put_onended (f : option Handler) (s : SourceNode) : SourceNode :=
  {| src_context := src_context s; src_buffer := src_buffer s;
     src_connected := src_connected s; onended := f;
     src_started := src_started s; src_stopped := src_stopped s;
     src_ended := src_ended s |}.

Definition put_started (s : SourceNode) : SourceNode :=
  {| src_context := src_context s; src_buffer := src_buffer s;
     src_connected := src_connected s; onended := onended s;
     src_started := true; src_stopped := src_stopped s;
     src_ended := src_ended s |}.

Definition put_stopped (s : SourceNode) : SourceNode :=
  {| src_context := src_context s; src_buffer := src_buffer s;
     src_connected := src_connected s; onended := onended s;
     src_started := src_started s; src_stopped := true;
     src_ended := src_ended s |}.

Definition put_ended (s : SourceNode) : SourceNode :=
  {| src_context := src_context s; src_buffer := src_buffer s;
     src_connected := src_connected s; onended := onended s;
     src_started := src_started s; src_stopped := src_stopped s;
     src_ended := true |}.

Definition src_update (h : nat) (f : SourceNode -> SourceNode) : Js unit :=
  _ <- the_source h ;;
  modify (upd_sources (alter f h)).

(** [source.buffer = b] *)
Definition src_set_buffer (h : nat) (b : AudioBuffer) : Js unit :=
  log_device (SetBuffer h b) ;;; src_update h (put_buffer b).

(** [source.connect(ctx.destination)] *)
Definition src_connect (h : nat) : Js unit :=
  log_device (Connect h) ;;; src_update h put_connected.

(** [source.onended = f] *)
Definition src_set_onended (h : nat) (f : option Handler) : Js unit :=
  log_device (SetOnended h f) ;;; src_update h (put_onended f).

(** [source.start()] *)
Definition src_start (h : nat) : Js unit :=
  log_device (SourceStart h) ;;;
  s <- the_source h ;;
  if src_started s then throw InvalidStateError
  else modify (upd_sources (alter put_started h)).

(** [source.stop()] *)
Definition src_stop (h : nat) : Js unit :=
  log_device (SourceStop h) ;;;
  s <- the_source h ;;
  if src_started s then modify (upd_sources (alter put_stopped h))
  else throw InvalidStateError.

(** ** The playback controller (lines 44-51 and 120-185) *)

Definition getAudioContext : Js nat :=
  cur <- read audioContextRef ;;
  match cur with
  | Some c => ret c
  | None =>
      c <- newAudioContext 24000 ;;
      modify (upd_audioContextRef (Some c)) ;;;
      ret c
  end.

Definition is_suspended (st : AudioContextState) : bool :=
  match st with Suspended => true | _ => false end.

Definition stopAudio : Js unit :=
  (cur <- read audioSourceRef ;;
   match cur with
   | Some h =>
       try_catch
         (src_set_onended h None ;;;
          src_stop h)
         (fun _ => ret tt) ;;;
       modify (upd_audioSourceRef None)
   | None => ret tt
   end) ;;;
  (cur <- read audioContextRef ;;
   match cur with
   | Some c =>
       x <- the_context c ;;
       if is_suspended (ctx_state x) then detached (ctx_resume c) else ret tt
   | None => ret tt
   end) ;;;
  setIsPlaying false ;;;
  setIsPaused false.

(** The body of the [onended] closure installed by [playAudio]. *)
Definition run_handler (f : Handler) : Js unit :=
  match f with
  | NaturalEnd => setIsPlaying false ;;; setIsPaused false
  end.

Definition playAudio (buffer : AudioBuffer) (ctx : nat) : Js unit :=
  stopAudio ;;;
  x <- the_context ctx ;;
  (if is_suspended (ctx_state x) then ctx_resume ctx else ret tt) ;;;
  source <- createBufferSource ctx ;;
  src_set_buffer source buffer ;;;
  src_connect source ;;;
  src_set_onended source (Some NaturalEnd) ;;;
  src_start source ;;;
  modify (upd_audioSourceRef (Some source)) ;;;
  setIsPlaying true ;;;
  setIsPaused false.

Definition handlePause : Js unit :=
  cur <- read audioContextRef ;;
  playing <- read isPlaying ;;
  match cur with
  | Some c =>
      if playing then
        ctx_suspend c ;;;
        setIsPlaying false ;;;
        setIsPaused true
      else ret tt
  | None => ret tt
  end.

Definition handleResume : Js unit :=
  cur <- read audioContextRef ;;
  paused <- read isPaused ;;
  match cur with
  | Some c =>
      if paused then
        ctx_resume c ;;;
        setIsPlaying true ;;;
        setIsPaused false
      else ret tt
  | None => ret tt
  end.

Definition bound_buffer (w : World) : option AudioBuffer :=
  match result (state w) with
  | Some r => audioBuffer r
  | None => None
  end.

Definition handleReplay : Js unit :=
  b <- read bound_buffer ;;
  cur <- read audioContextRef ;;
  match b, cur with
  | Some buffer, Some c => detached (playAudio buffer c)
  | _, _ => ret tt
  end.

(** The cleanup of the mount effect (lines 260-267). *)
Definition cleanup : Js unit :=
  stopAudio ;;;
  cur <- read audioContextRef ;;
  match cur with
  | Some c => detached (ctx_close c)
  | None => ret tt
  end.

(** The browser dispatches [ended] to a started source once, when it has
    played to its end or after it was stopped; the event may be delivered
    after other handlers have run. *)
Definition dispatch_ended (h : nat) : Js unit :=
  fun w =>
    match sources w !! h with
    | Some s =>
        if src_started s && negb (src_ended s) then
          (modify (upd_sources (alter put_ended h)) ;;;
           match onended s with
           | Some f => run_handler f
           | None => ret tt
           end) w
        else (Normal tt, w)
    | None => (Normal tt, w)
    end.

(** ** The pipeline (lines 53-118) *)

(** How an awaited promise settles. *)
Inductive Outcome (A : Type) :=
| Resolved (a : A)
| Rejected (e : JsError).

Arguments Resolved {A} a.

Arguments Rejected {A} e.

Definition await {A} (o : Outcome A) : Js A :=
  match o with
  | Resolved a => ret a
  | Rejected e => throw e
  end.

(** Whether [err.message] is a non-empty string.  A [DOMException] always
    carries a message. *)
Definition has_message (err : JsError) : bool :=
  match err with
  | ServiceError (Some m) => truthy m
  | ServiceError None => false
  | InvalidStateError | TypeError => true
  end.

(** [err.message || fallback] *)
Definition message_or (err : JsError) (fallback : Notice) : Notice :=
  if has_message err then NoticeThrown err else fallback.

Definition park (t : Task) : Js nat :=
  id <- read (fun w => length (tasks w)) ;;
  modify (upd_tasks (fun l => l ++ [t])) ;;;
  ret id.

Definition repark (id : nat) (t : Task) : Js unit :=
  modify (upd_tasks (fun l => <[id := t]> l)).

(** Lines 53-72: up to the first [await]. *)
Definition handleTranslateAndSpeak : Js unit :=
  st <- read state ;;
  if negb (truthy (trim (inputText st))) then
    setState (with_error (Some NoticeEmptyInput))
  else if MAX_INPUT_LENGTH <? length (inputText st) then
    setState (with_error (Some (NoticeInputTooLong (length (inputText st)))))
  else
    setState (fun prev => with_result None (with_error None (with_isProcessing true prev))) ;;;
    stopAudio ;;;
    log_call (TranslateSafetyText (inputText st) (selectedLanguage st)) ;;;
    _ <- park (AwaitTranslation (inputText st) (selectedLanguage st)) ;;
    ret tt.

Definition speech_failed (audioErr : JsError) : Js unit :=
  setState (fun prev =>
    with_error (Some (NoticeSpeechFailed audioErr)) (with_isProcessing false prev)).

Definition pipeline_failed (err : JsError) : Js unit :=
  setState (fun prev =>
    with_error (Some (message_or err NoticeProcessingFailed))
      (with_isProcessing false prev)).

(** Lines 72-90 and 111-117: from the translation's settlement to the
    second [await]. *)
Definition after_translation (id : nat) (text : jsstring) (lang : TargetLanguage)
    (o : Outcome jsstring) : Js unit :=
  repark id Settled ;;;
  try_catch
    (translated <- await o ;;
     setState (with_result (Some
       {| originalText := text; translatedText := translated;
          targetLanguage := lang; audioBuffer := None |})) ;;;
     try_catch
       (audioCtx <- getAudioContext ;;
        log_call (GenerateSpeech translated audioCtx) ;;;
        repark id (AwaitSpeech translated audioCtx))
       speech_failed)
    pipeline_failed.

(** Lines 90-117: from the synthesis' settlement to the end. *)
Definition after_speech (id : nat) (audioCtx : nat) (o : Outcome AudioBuffer)
  : Js unit :=
  repark id Settled ;;;
  try_catch
    (try_catch
       (buffer <- await o ;;
        setState (fun prev =>
          with_result (option_map (with_audioBuffer (Some buffer)) (result prev))
            (with_isProcessing false prev)) ;;;
        playAudio buffer audioCtx)
       speech_failed)
    pipeline_failed.

(** ** File upload and the remaining handlers (lines 189-256, 361, 391) *)

Definition handleFile (file : File) : Js unit :=
  if negb (validFileType file) then
    setState (with_error (Some NoticeBadFileType))
  else if negb (validFileSize file) then
    setState (with_error (Some NoticeFileTooLarge))
  else
    setIsExtracting true ;;;
    setState (fun prev => with_result None (with_error None prev)) ;;;
    log_call (ExtractTextFromFile file) ;;;
    _ <- park (AwaitExtraction file) ;;
    ret tt.

(** Lines 204-224: from the extraction's settlement to the end. *)
Definition after_extraction (id : nat) (o : Outcome jsstring) : Js unit :=
  repark id Settled ;;;
  try_catch
    (extracted <- await o ;;
     if MAX_INPUT_LENGTH <? length extracted then
       setState (fun prev =>
         with_error (Some NoticeFileTruncated)
           (with_inputText (slice0 MAX_INPUT_LENGTH extracted) prev))
     else
       setState (with_inputText extracted))
    (fun err => setState (with_error (Some (message_or err NoticeFileReadFailed)))) ;;;
  setIsExtracting false.

(** The textarea's [onChange]. *)
Definition onChange (value : jsstring) : Js unit :=
  setState (fun prev => with_error None (with_inputText value prev)).

Definition clearInput : Js unit :=
  setState (fun prev => with_result None (with_inputText [] prev)).

(** The [onClick] of a language button. *)
Definition selectLanguage (lang : TargetLanguage) : Js unit :=
  setState (fun prev => with_result None (with_selectedLanguage lang prev)).

(** ** Events

    What can happen to the mounted component: the operator uses a control
    that is rendered and enabled, a parked handler's promise settles, or
    the browser delivers [ended] to a source.  Unmounting is not among them:
    the events describe the mounted component, and [cleanup] is what runs
    when it goes away. *)

Inductive Event :=
| Input (value : jsstring)
| ClickClear
| ChooseFile (file : File)
| SelectLanguage (lang : TargetLanguage)
| ClickStart
| ClickPauseResume
| ClickStop
| ClickReplay
| TranslationSettled (id : nat) (o : Outcome jsstring)
| SpeechSettled (id : nat) (o : Outcome AudioBuffer)
| ExtractionSettled (id : nat) (o : Outcome jsstring)
| Ended (h : nat).

(** [disabled] of the start button (line 413). *)
Definition start_disabled (w : World) : bool :=
  isProcessing (state w) || isExtracting w
  || negb (truthy (trim (inputText (state w)))).

(** Lines 468-515: which transport controls are rendered. *)
Definition has_audio (w : World) : bool :=
  match bound_buffer w with Some _ => true | None => false end.

Definition transport_shown (w : World) : bool :=
  has_audio w && (isPlaying w || isPaused w).

Definition replay_shown (w : World) : bool :=
  has_audio w && negb (isPlaying w || isPaused w).

(** An error no handler caught ends up with the browser. *)
Definition top_level (m : Js unit) (w : World) : World := exec (detached m) w.

Definition step (ev : Event) (w : World) : World :=
  match ev with
  | Input value => top_level (onChange value) w
  | ClickClear =>
      if truthy (inputText (state w)) then top_level clearInput w else w
  | ChooseFile file => top_level (handleFile file) w
  | SelectLanguage lang => top_level (selectLanguage lang) w
  | ClickStart =>
      if start_disabled w then w else top_level handleTranslateAndSpeak w
  | ClickPauseResume =>
      if transport_shown w then
        top_level (if isPlaying w then handlePause else handleResume) w
      else w
  | ClickStop => if transport_shown w then top_level stopAudio w else w
  | ClickReplay => if replay_shown w then top_level handleReplay w else w
  | TranslationSettled id o =>
      match tasks w !! id with
      | Some (AwaitTranslation text lang) =>
          top_level (after_translation id text lang o) w
      | _ => w
      end
  | SpeechSettled id o =>
      match tasks w !! id with
      | Some (AwaitSpeech _ audioCtx) => top_level (after_speech id audioCtx o) w
      | _ => w
      end
  | ExtractionSettled id o =>
      match tasks w !! id with
      | Some (AwaitExtraction _) => top_level (after_extraction id o) w
      | _ => w
      end
  | Ended h => top_level (dispatch_ended h) w
  end.

Definition run (evs : list Event) (w : World) : World :=
  fold_left (fun acc ev => step ev acc) evs w.

(** ** Observations *)

Definition in_flight (t : Task) : bool :=
  match t with
  | AwaitTranslation _ _ | AwaitSpeech _ _ => true
  | AwaitExtraction _ | Settled => false
  end.

(** Pipeline invocations that are parked at an [await]. *)
Definition runs_in_flight (w : World) : nat :=
  length (List.filter in_flight (tasks w)).

(** Sources currently occupying the output device. *)
Definition sounding_sources (w : World) : list SourceNode :=
  List.filter sounding (sources w).

Definition is_synthesis_call (c : Call) : bool :=
  match c with GenerateSpeech _ _ => true | _ => false end.

Definition is_close_call (c : DeviceCall) : bool :=
  match c with CtxClose _ => true | _ => false end.

Definition is_create_call (c : DeviceCall) : bool :=
  match c with NewAudioContext _ => true | _ => false end.

(** * Vocabulary of the proofs

    ** Closed forms of the playback controller

    What [stopAudio] and [playAudio] do to a world whose refs point at
    existing objects, as plain functions. *)

Definition bound {A} (r : option nat) (l : list A) : Prop :=
  match r with Some i => i < length l | None => True end.

Definition refs_bound (w : World) : Prop :=
  bound (audioContextRef w) (contexts w) /\ bound (audioSourceRef w) (sources w).

Definition halted (s : SourceNode) : SourceNode :=
  if src_started s then put_stopped (put_onended None s) else put_onended None s.

Definition released (w : World) : World :=
  match audioSourceRef w with
  | Some h =>
      upd_audioSourceRef None
        (upd_sources (alter halted h)
           (upd_devlog (fun l => l ++ [SetOnended h None; SourceStop h]) w))
  | None => w
  end.

Definition suspended_at (c : nat) (w : World) : bool :=
  match contexts w !! c with
  | Some x => is_suspended (ctx_state x)
  | None => false
  end.

Definition resumed (c : nat) (w : World) : World :=
  if suspended_at c w then
    upd_contexts (alter (set_ctx_state Running) c)
      (upd_devlog (fun l => l ++ [CtxResume c]) w)
  else w.

Definition woken (w : World) : World :=
  match audioContextRef w with
  | Some c => resumed c w
  | None => w
  end.

Definition stopped (w : World) : World :=
  upd_isPaused false (upd_isPlaying false (woken (released w))).

Definition playing_source (c : nat) (b : AudioBuffer) : SourceNode :=
  {| src_context := c; src_buffer := Some b; src_connected := true;
     onended := Some NaturalEnd; src_started := true; src_stopped := false;
     src_ended := false |}.

Definition started (b : AudioBuffer) (c : nat) (w : World) : World :=
  let h := length (sources w) in
  upd_isPaused false
    (upd_isPlaying true
       (upd_audioSourceRef (Some h)
          (upd_sources (fun l => l ++ [playing_source c b])
             (upd_devlog (fun l => l ++ [CreateBufferSource c; SetBuffer h b;
                                         Connect h; SetOnended h (Some NaturalEnd);
                                         SourceStart h]) w)))).

Definition played (b : AudioBuffer) (c : nat) (w : World) : World :=
  started b c (resumed c (stopped w)).

Ltac js_unfold :=
  unfold detached, try_catch, ctx_resume, ctx_suspend, ctx_close, ctx_switch,
    src_set_onended, src_stop, src_start, src_set_buffer, src_connect,
    src_update, createBufferSource, newAudioContext, the_context, the_source,
    log_device, log_call, setIsPlaying, setIsPaused, setIsExtracting, setState,
    park, repark, await, modify, read, bind, ret, throw in *.

(** The three parts of [stopAudio] and [playAudio], named. *)
Definition release_block : Js unit :=
  cur <- read audioSourceRef ;;
  match cur with
  | Some h =>
      try_catch (src_set_onended h None ;;; src_stop h) (fun _ => ret tt) ;;;
      modify (upd_audioSourceRef None)
  | None => ret tt
  end.

Definition wake_block : Js unit :=
  cur <- read audioContextRef ;;
  match cur with
  | Some c =>
      x <- the_context c ;;
      if is_suspended (ctx_state x) then detached (ctx_resume c) else ret tt
  | None => ret tt
  end.

Definition start_block (buffer : AudioBuffer) (ctx : nat) : Js unit :=
  source <- createBufferSource ctx ;;
  src_set_buffer source buffer ;;;
  src_connect source ;;;
  src_set_onended source (Some NaturalEnd) ;;;
  src_start source ;;;
  modify (upd_audioSourceRef (Some source)) ;;;
  setIsPlaying true ;;;
  setIsPaused false.

(** ** The invariant of the mounted component *)

Definition ctx_singleton (w : World) : Prop :=
  match audioContextRef w with
  | None => contexts w = []
  | Some c => c = 0 /\ exists x, contexts w = [x] /\ ctx_state x <> Closed
  end.

(** The audio side: one context at most, never closed while mounted; the
    source ref points at a source; a source that occupies the device is the
    one the ref points at; no device call ever failed. *)
Record AudioInv (w : World) : Prop := {
  inv_ctx : ctx_singleton w;
  inv_src : bound (audioSourceRef w) (sources w);
  inv_excl : forall h s, sources w !! h = Some s -> sounding s = true ->
                         audioSourceRef w = Some h;
  inv_quiet : unhandled w = [];
  inv_open : List.filter is_close_call (devlog w) = [];
  inv_created : length (List.filter is_create_call (devlog w)) = length (contexts w)
}.

(** The pipeline side: at most one invocation is parked, and only while the
    processing flag is set; what a parked invocation has published. *)
Record PipeInv (w : World) : Prop := {
  inv_one : runs_in_flight w <= 1;
  inv_proc : isProcessing (state w) = false -> runs_in_flight w = 0;
  inv_speech_ctx : forall id t c, tasks w !! id = Some (AwaitSpeech t c) ->
                                  audioContextRef w = Some c;
  inv_translation : forall id text lang,
      tasks w !! id = Some (AwaitTranslation text lang) -> result (state w) = None;
  inv_speech : forall id t c r,
      tasks w !! id = Some (AwaitSpeech t c) -> result (state w) = Some r ->
      translatedText r = t /\ audioBuffer r = None;
  inv_audio : has_audio w = true -> audioContextRef w <> None
}.

Definition Inv (w : World) : Prop := AudioInv w /\ PipeInv w.

Ltac world w := destruct w as [st ex pl pa cr sr cs ss ts cl dl un].

Ltac audio_goal :=
  unfold ctx_singleton; simpl; try assumption; try exact Logic.I;
  try (rewrite !List.filter_app; simpl; rewrite ?app_nil_r; assumption);
  try (rewrite !List.filter_app; simpl;
       match goal with H : List.filter _ _ = [] |- _ => rewrite H; reflexivity end);
  try (split; [reflexivity|]; eexists; split; [reflexivity|];
       first [assumption | simpl; discriminate]).

(** ** Closed forms of the pipeline's steps *)

Definition start_fields (prev : AppState) : AppState :=
  with_result None (with_error None (with_isProcessing true prev)).

Definition launched (w : World) : World :=
  upd_tasks (fun l => l ++ [AwaitTranslation (inputText (state w))
                                             (selectedLanguage (state w))])
    (upd_calls (fun l => l ++ [TranslateSafetyText (inputText (state w))
                                                   (selectedLanguage (state w))])
       (stopped (upd_state start_fields w))).

Definition ensured (w : World) : World :=
  match audioContextRef w with
  | Some _ => w
  | None =>
      upd_audioContextRef (Some (length (contexts w)))
        (upd_contexts (fun l => l ++ [{| ctx_state := Running; sampleRate := 24000 |}])
           (upd_devlog (fun l => l ++ [NewAudioContext 24000]) w))
  end.

Definition the_ctx (w : World) : nat :=
  match audioContextRef w with
  | Some c => c
  | None => length (contexts w)
  end.

Definition translated_fields text t lang : AppState -> AppState :=
  with_result (Some {| originalText := text; translatedText := t;
                       targetLanguage := lang; audioBuffer := None |}).

Definition speech_requested (id : nat) text lang t (w : World) : World :=
  let w0 := upd_state (translated_fields text t lang)
              (upd_tasks (fun l => <[id := Settled]> l) w) in
  upd_tasks (fun l => <[id := AwaitSpeech t (the_ctx w0)]> l)
    (upd_calls (fun l => l ++ [GenerateSpeech t (the_ctx w0)]) (ensured w0)).

Definition failed_fields (n : Notice) (prev : AppState) : AppState :=
  with_error (Some n) (with_isProcessing false prev).

Definition audio_fields (b : AudioBuffer) (prev : AppState) : AppState :=
  with_result (option_map (with_audioBuffer (Some b)) (result prev))
    (with_isProcessing false prev).

(** ** What an event does, in closed form *)

Definition step_spec (ev : Event) (w : World) : World :=
  match ev with
  | ClickStart =>
      if start_disabled w then w
      else if MAX_INPUT_LENGTH <? length (inputText (state w)) then
        upd_state (with_error (Some (NoticeInputTooLong (length (inputText (state w)))))) w
      else launched w
  | ClickStop => if transport_shown w then stopped w else w
  | ClickReplay =>
      if replay_shown w then
        match bound_buffer w, audioContextRef w with
        | Some b, Some c => played b c w
        | _, _ => w
        end
      else w
  | TranslationSettled id o =>
      match tasks w !! id with
      | Some (AwaitTranslation text lang) =>
          match o with
          | Resolved t => speech_requested id text lang t w
          | Rejected err =>
              upd_state (failed_fields (message_or err NoticeProcessingFailed))
                (upd_tasks (fun l => <[id := Settled]> l) w)
          end
      | _ => w
      end
  | SpeechSettled id o =>
      match tasks w !! id with
      | Some (AwaitSpeech _ c) =>
          match o with
          | Resolved b =>
              played b c (upd_state (audio_fields b)
                            (upd_tasks (fun l => <[id := Settled]> l) w))
          | Rejected err =>
              upd_state (failed_fields (NoticeSpeechFailed err))
                (upd_tasks (fun l => <[id := Settled]> l) w)
          end
      | _ => w
      end
  | _ => step ev w
  end.


(** Source [h] exists and has no [onended] handler. *)
Definition muted (h : nat) (ss : list SourceNode) : Prop :=
  exists s, ss !! h = Some s /\ onended s = None.

(** How often [close()] has been called. *)
Definition close_calls (w : World) : nat :=
  length (List.filter is_close_call (devlog w)).

(** ** Sample inputs and worlds *)

Definition long_text : jsstring := repeat 65%N 10001.

Definition short_text : jsstring := [50504; 51204; 47784]%N.

Definition a_file : File := {| file_id := 1; validFileType := true; validFileSize := true |}.


Definition shown_world : World :=
  run [Input short_text; ClickStart; TranslationSettled 0 (Resolved [35831%N]);
       SpeechSettled 0 (Resolved (Buffer 7))] initial.

Definition translating_world : list Event := [Input short_text; ClickStart].

Definition ended_world : World := step (Ended 0) shown_world.

(** ** The transport flags and the device *)

(** The component holds one context, in state [st]. *)
Definition device_is (st : AudioContextState) (w : World) : Prop :=
  exists x, audioContextRef w = Some 0 /\ contexts w = [x] /\ ctx_state x = st.

(** [audioSourceRef] points at source [s]. *)
Definition bound_source (w : World) (h : nat) (s : SourceNode) : Prop :=
  audioSourceRef w = Some h /\ sources w !! h = Some s.

(** How [isPlaying] and [isPaused] relate to the source the ref points at and
    to the context: the bound source was started and carries the natural-end
    handler, every other source has none; playing means the bound source has
    not ended and the context runs, paused means it has not ended and the
    context is suspended, neither means it has ended. *)
Record PlayInv (w : World) : Prop := {
  play_excl : isPlaying w = true -> isPaused w = false;
  play_bound : forall h s, bound_source w h s ->
      onended s = Some NaturalEnd /\ src_started s = true /\ src_stopped s = false;
  play_unbound : forall h s, sources w !! h = Some s ->
      audioSourceRef w <> Some h -> onended s = None;
  play_on : isPlaying w = true ->
      device_is Running w /\ exists h s, bound_source w h s /\ src_ended s = false;
  play_paused : isPaused w = true ->
      device_is Suspended w /\ exists h s, bound_source w h s /\ src_ended s = false;
  play_off : isPlaying w = false -> isPaused w = false ->
      forall h s, bound_source w h s -> src_ended s = true;
  play_rate : Forall (fun x => sampleRate x = 24000%N) (contexts w)
}.


(** A text made of white space only. *)
Definition blank (s : jsstring) : bool := forallb is_js_whitespace s.

(** What the guards in front of a collaborator call let through. *)
Definition call_ok (c : Call) : bool :=
  match c with
  | TranslateSafetyText text _ =>
      truthy (trim text) && (length text <=? MAX_INPUT_LENGTH)
  | GenerateSpeech _ _ => true
  | ExtractTextFromFile f => validFileType f && validFileSize f
  end.


Definition playing_events : list Event :=
  [Input [50504; 51204; 47784]%N; ClickStart;
   TranslationSettled 0 (Resolved [35831%N]);
   SpeechSettled 0 (Resolved (Buffer 7))].

Definition oversized_text : jsstring := repeat 44032%N 10500.

(** * Closed forms of [stopAudio] and [playAudio] *)

Lemma alter_halted h (s : SourceNode) (ss : list SourceNode) :
  ss !! h = Some s ->
  (if src_started s
   then alter put_stopped h (alter (put_onended None) h ss)
   else alter (put_onended None) h ss) = alter halted h ss.
Proof.
  intros Hs. destruct (src_started s) eqn:E.
  - rewrite list_alter_alter_eq. apply list_alter_ext; auto.
    intros s' Hs'. rewrite Hs in Hs'. injection Hs' as <-.
    unfold halted. rewrite E. reflexivity.
  - apply list_alter_ext; auto.
    intros s' Hs'. rewrite Hs in Hs'. injection Hs' as <-.
    unfold halted. rewrite E. reflexivity.
Qed.

Lemma stopAudio_blocks :
  stopAudio = (release_block ;;; wake_block ;;; setIsPlaying false ;;; setIsPaused false).
Proof. reflexivity. Qed.

Lemma release_block_eq (w : World) :
  bound (audioSourceRef w) (sources w) -> release_block w = (Normal tt, released w).
Proof.
  destruct w as [st ex pl pa cr sr cs ss ts cl dl un]. simpl.
  unfold release_block, released. js_unfold. simpl.
  destruct sr as [h|]; simpl; [|reflexivity].
  intros Hs. destruct (lookup_lt_is_Some_2 ss h Hs) as [s Hs'].
  rewrite Hs'. simpl. rewrite list_lookup_alter_eq, Hs'. simpl.
  rewrite <- (alter_halted h s ss Hs').
  destruct (src_started s); simpl; rewrite <- !app_assoc; reflexivity.
Qed.

Lemma ctx_resume_eq (c : nat) (w : World) :
  suspended_at c w = true -> ctx_resume c w = (Normal tt, resumed c w).
Proof.
  destruct w as [st ex pl pa cr sr cs ss ts cl dl un].
  unfold resumed, suspended_at. js_unfold. simpl.
  destruct (cs !! c) as [x|] eqn:Hx; [|discriminate].
  intros E. rewrite E. destruct (ctx_state x); try discriminate. reflexivity.
Qed.

Lemma wake_block_eq (w : World) :
  bound (audioContextRef w) (contexts w) -> wake_block w = (Normal tt, woken w).
Proof.
  unfold wake_block, woken. intros Hc.
  unfold bind at 1, read at 1. destruct (audioContextRef w) as [c|]; [|reflexivity].
  simpl in Hc. destruct (lookup_lt_is_Some_2 _ c Hc) as [x Hx].
  unfold bind, the_context. rewrite Hx.
  destruct (is_suspended (ctx_state x)) eqn:E.
  - unfold detached. rewrite ctx_resume_eq; [reflexivity|].
    unfold suspended_at. rewrite Hx. exact E.
  - unfold resumed, suspended_at. rewrite Hx, E. reflexivity.
Qed.

Lemma released_contexts w : contexts (released w) = contexts w.
Proof. destruct w as [st ex pl pa cr [h|] cs ss ts cl dl un]; reflexivity. Qed.

Lemma released_audioContextRef w : audioContextRef (released w) = audioContextRef w.
Proof. destruct w as [st ex pl pa cr [h|] cs ss ts cl dl un]; reflexivity. Qed.

Lemma stopAudio_eq (w : World) :
  refs_bound w -> stopAudio w = (Normal tt, stopped w).
Proof.
  intros [Hc Hs]. rewrite stopAudio_blocks. unfold bind.
  rewrite release_block_eq by exact Hs.
  rewrite wake_block_eq
    by (rewrite released_contexts, released_audioContextRef; exact Hc).
  reflexivity.
Qed.

Lemma lookup_snoc {A} (l : list A) (x : A) : (l ++ [x]) !! length l = Some x.
Proof. apply list_lookup_middle. reflexivity. Qed.

Lemma alter_snoc {A} (f : A -> A) (l : list A) (x : A) :
  alter f (length l) (l ++ [x]) = l ++ [f x].
Proof.
  rewrite alter_app_r_alt by lia. rewrite Nat.sub_diag. reflexivity.
Qed.

Lemma start_block_eq (b : AudioBuffer) (c : nat) (w : World) :
  c < length (contexts w) -> start_block b c w = (Normal tt, started b c w).
Proof.
  destruct w as [st ex pl pa cr sr cs ss ts cl dl un]. simpl. intros Hc.
  destruct (lookup_lt_is_Some_2 cs c Hc) as [x Hx].
  unfold start_block, started. js_unfold. simpl. rewrite Hx. simpl.
  repeat (rewrite ?lookup_snoc, ?alter_snoc; simpl).
  rewrite <- !app_assoc. reflexivity.
Qed.

Lemma resume_then {B} (c : nat) (k : Js B) (w : World) :
  c < length (contexts w) ->
  (x <- the_context c ;;
   (if is_suspended (ctx_state x) then ctx_resume c else ret tt) ;;; k) w
  = k (resumed c w).
Proof.
  intros Hc. destruct (lookup_lt_is_Some_2 _ c Hc) as [x Hx].
  unfold bind, the_context. rewrite Hx.
  destruct (is_suspended (ctx_state x)) eqn:E.
  - rewrite ctx_resume_eq; [reflexivity|].
    unfold suspended_at. rewrite Hx. exact E.
  - unfold resumed, suspended_at. rewrite Hx, E. reflexivity.
Qed.

Lemma resumed_length c w : length (contexts (resumed c w)) = length (contexts w).
Proof.
  unfold resumed. destruct (suspended_at c w); [|reflexivity].
  destruct w; simpl. apply length_alter.
Qed.

Lemma woken_length w : length (contexts (woken w)) = length (contexts w).
Proof. unfold woken. destruct (audioContextRef w); auto using resumed_length. Qed.

Lemma stopped_length w : length (contexts (stopped w)) = length (contexts w).
Proof.
  unfold stopped.
  transitivity (length (contexts (woken (released w)))).
  - destruct (woken (released w)); reflexivity.
  - rewrite woken_length, released_contexts. reflexivity.
Qed.

Lemma playAudio_eq (b : AudioBuffer) (c : nat) (w : World) :
  refs_bound w -> c < length (contexts w) ->
  playAudio b c w = (Normal tt, played b c w).
Proof.
  intros Hw Hc.
  change (playAudio b c) with
    (stopAudio ;;;
     x <- the_context c ;;
     (if is_suspended (ctx_state x) then ctx_resume c else ret tt) ;;;
     start_block b c).
  unfold bind at 1. rewrite stopAudio_eq by exact Hw.
  rewrite resume_then by (rewrite stopped_length; exact Hc).
  apply start_block_eq. rewrite resumed_length, stopped_length. exact Hc.
Qed.

(** * Counting with lookups *)

Section Counting.
Context {A : Type} (p : A -> bool).

Lemma filter_none (l : list A) :
  (forall i x, l !! i = Some x -> p x = false) -> List.filter p l = [].
Proof.
  induction l as [|a l IH]; intros H; simpl; [reflexivity|].
  rewrite (H 0 a eq_refl). apply IH. intros i x Hi. exact (H (S i) x Hi).
Qed.


Lemma filter_zero_lookup (l : list A) i x :
  length (List.filter p l) = 0 -> l !! i = Some x -> p x = false.
Proof.
  revert i. induction l as [|a l IH]; intros i H Hi; [discriminate|].
  simpl in H. destruct (p a) eqn:Ea; [discriminate|].
  destruct i as [|i]; simpl in Hi.
  - injection Hi as <-. exact Ea.
  - exact (IH i H Hi).
Qed.

Lemma filter_insert_count (l : list A) i x y :
  l !! i = Some x ->
  length (List.filter p (<[i:=y]> l)) + Nat.b2n (p x)
  = length (List.filter p l) + Nat.b2n (p y).
Proof.
  revert i. induction l as [|a l IH]; intros i Hi; [discriminate|].
  destruct i as [|i]; simpl in *.
  - injection Hi as <-. destruct (p a), (p y); simpl; lia.
  - specialize (IH i Hi). destruct (p a); simpl; lia.
Qed.

Lemma filter_snoc_count (l : list A) x :
  length (List.filter p (l ++ [x])) = length (List.filter p l) + Nat.b2n (p x).
Proof.
  rewrite List.filter_app, List.length_app. simpl. destruct (p x); reflexivity.
Qed.

End Counting.

Lemma audio_refs_bound w : AudioInv w -> refs_bound w.
Proof.
  intros I. split; [|exact (inv_src w I)].
  pose proof (inv_ctx w I) as H. unfold ctx_singleton in H.
  destruct (audioContextRef w) as [c|]; simpl; [|exact Logic.I].
  destruct H as (-> & x & -> & _). simpl. lia.
Qed.

Lemma audio_ctx_bound w c :
  AudioInv w -> audioContextRef w = Some c -> c < length (contexts w).
Proof.
  intros I Hc. destruct (audio_refs_bound w I) as [H _]. rewrite Hc in H. exact H.
Qed.

Lemma sounding_halted s : sounding (halted s) = false.
Proof. unfold sounding, halted. destruct s as [? ? ? ? [] [] []]; reflexivity. Qed.

Lemma sounding_put_ended s : sounding (put_ended s) = false.
Proof. unfold sounding. destruct s as [? ? ? ? [] [] []]; reflexivity. Qed.

(** * The invariant holds in every reachable state *)

Lemma initial_inv : Inv initial.
Proof.
  split; constructor; simpl;
    try solve [ reflexivity | lia | discriminate | exact Logic.I
              | intros; reflexivity
              | unfold runs_in_flight; simpl; lia
              | intros; match goal with H : [] !! _ = Some _ |- _ =>
                          rewrite lookup_nil in H; discriminate H end ].
Qed.

(** ** Frames *)

Lemma pipe_frame (w w' : World) :
  state w' = state w -> tasks w' = tasks w ->
  audioContextRef w' = audioContextRef w ->
  PipeInv w -> PipeInv w'.
Proof.
  intros Hs Ht Hc [I1 I2 I3 I4 I5 I6].
  constructor; unfold runs_in_flight, has_audio, bound_buffer in *;
    rewrite ?Hs, ?Ht, ?Hc; assumption.
Qed.

Lemma audio_frame (w w' : World) :
  audioContextRef w' = audioContextRef w -> audioSourceRef w' = audioSourceRef w ->
  contexts w' = contexts w -> sources w' = sources w ->
  devlog w' = devlog w -> unhandled w' = unhandled w ->
  AudioInv w -> AudioInv w'.
Proof.
  intros H1 H2 H3 H4 H5 H6 [I1 I2 I3 I4 I5 I6].
  constructor; unfold ctx_singleton in *;
    rewrite ?H1, ?H2, ?H3, ?H4, ?H5, ?H6; assumption.
Qed.

(** ** [stopAudio] and [playAudio] keep the invariant *)

Lemma filter_close_snoc dl c :
  is_close_call c = false ->
  List.filter is_close_call (dl ++ [c]) = List.filter is_close_call dl.
Proof. intros H. rewrite List.filter_app. simpl. rewrite H. apply app_nil_r. Qed.

Lemma released_audio w : AudioInv w -> AudioInv (released w).
Proof.
  intros [I1 I2 I3 I4 I5 I6]. world w. unfold ctx_singleton in *. simpl in *.
  destruct sr as [h|]; simpl in *; [|constructor; assumption].
  constructor; audio_goal.
  intros j s Hj Hs. exfalso.
  destruct (decide (h = j)) as [->|Hne].
  - rewrite list_lookup_alter_eq in Hj.
    destruct (ss !! j) as [s0|]; [|discriminate]. injection Hj as <-.
    rewrite sounding_halted in Hs. discriminate.
  - rewrite list_lookup_alter_ne in Hj by exact Hne.
    specialize (I3 j s Hj Hs). congruence.
Qed.

Lemma resumed_audio c w :
  AudioInv w -> audioContextRef w = Some c -> AudioInv (resumed c w).
Proof.
  intros [I1 I2 I3 I4 I5 I6] Hc. world w. unfold ctx_singleton in *. simpl in *.
  subst cr. destruct I1 as (-> & x & -> & Hx).
  unfold resumed, suspended_at. simpl.
  destruct (is_suspended (ctx_state x)); constructor; audio_goal.
Qed.

Lemma woken_audio w : AudioInv w -> AudioInv (woken w).
Proof.
  intros I. unfold woken. destruct (audioContextRef w) eqn:E; [|exact I].
  apply resumed_audio; assumption.
Qed.

Lemma stopped_audio w : AudioInv w -> AudioInv (stopped w).
Proof.
  intros I. apply released_audio, woken_audio in I. unfold stopped.
  revert I. generalize (woken (released w)). intros w' I.
  apply (audio_frame w'); try (world w'; reflexivity). exact I.
Qed.

Lemma stopped_fields w :
  state (stopped w) = state w /\ tasks (stopped w) = tasks w /\
  calls (stopped w) = calls w /\ audioContextRef (stopped w) = audioContextRef w /\
  isExtracting (stopped w) = isExtracting w /\ unhandled (stopped w) = unhandled w /\
  audioSourceRef (stopped w) = None /\ isPlaying (stopped w) = false /\
  isPaused (stopped w) = false.
Proof.
  world w. unfold stopped, woken, released, resumed, suspended_at. simpl.
  destruct sr, cr; simpl;
    repeat match goal with |- context [if ?b then _ else _] => destruct b end;
    simpl; repeat split; reflexivity.
Qed.

Lemma started_audio b c w :
  AudioInv w -> audioSourceRef w = None -> AudioInv (started b c w).
Proof.
  intros [I1 I2 I3 I4 I5 I6] Hs. world w. unfold ctx_singleton in *. simpl in *.
  subst sr. constructor; audio_goal.
  - rewrite length_app. simpl. lia.
  - intros j s Hj Hsound. f_equal.
    destruct (decide (j < length ss)) as [Hlt|Hge].
    + rewrite lookup_app_l in Hj by exact Hlt.
      discriminate (I3 j s Hj Hsound).
    + apply lookup_lt_Some in Hj. rewrite length_app in Hj. simpl in Hj. lia.
Qed.

Lemma resumed_fields c w :
  state (resumed c w) = state w /\ tasks (resumed c w) = tasks w /\
  calls (resumed c w) = calls w /\
  audioContextRef (resumed c w) = audioContextRef w /\
  isExtracting (resumed c w) = isExtracting w /\
  unhandled (resumed c w) = unhandled w /\
  audioSourceRef (resumed c w) = audioSourceRef w /\
  sources (resumed c w) = sources w /\
  isPlaying (resumed c w) = isPlaying w /\ isPaused (resumed c w) = isPaused w.
Proof.
  world w. unfold resumed, suspended_at. simpl.
  repeat match goal with |- context [if ?b then _ else _] => destruct b end;
    simpl; repeat split; reflexivity.
Qed.

Lemma played_audio b c w :
  AudioInv w -> audioContextRef w = Some c -> AudioInv (played b c w).
Proof.
  intros I Hc. unfold played.
  destruct (stopped_fields w) as (_ & _ & _ & Hc' & _ & _ & Hs & _).
  destruct (resumed_fields c (stopped w)) as (_ & _ & _ & _ & _ & _ & Hs' & _).
  apply started_audio.
  - apply resumed_audio; [apply stopped_audio; exact I|]. congruence.
  - congruence.
Qed.

Lemma played_fields b c w :
  state (played b c w) = state w /\ tasks (played b c w) = tasks w /\
  calls (played b c w) = calls w /\
  audioContextRef (played b c w) = audioContextRef w /\
  isExtracting (played b c w) = isExtracting w /\
  unhandled (played b c w) = unhandled w /\
  audioSourceRef (played b c w) = Some (length (sources w)) /\
  isPlaying (played b c w) = true /\ isPaused (played b c w) = false.
Proof.
  world w. unfold played, started, stopped, woken, released, resumed, suspended_at.
  simpl.
  destruct sr, cr; simpl;
    repeat match goal with |- context [if ?b then _ else _] => destruct b end;
    simpl; rewrite ?length_alter; repeat split; reflexivity.
Qed.

(** ** Closed forms of the handlers *)

Lemma top_level_normal (m : Js unit) (w w' : World) :
  m w = (Normal tt, w') -> top_level m w = w'.
Proof. unfold top_level, exec, detached. intros ->. reflexivity. Qed.

Lemma stopAudio_then {B} (k : Js B) (w : World) :
  refs_bound w -> (stopAudio ;;; k) w = k (stopped w).
Proof. intros H. unfold bind. rewrite stopAudio_eq by exact H. reflexivity. Qed.

Lemma playAudio_then {B} b c (k : Js B) (w : World) :
  refs_bound w -> c < length (contexts w) ->
  (playAudio b c ;;; k) w = k (played b c w).
Proof. intros H Hc. unfold bind. rewrite playAudio_eq by assumption. reflexivity. Qed.

Lemma refs_bound_upd_state f w : refs_bound w -> refs_bound (upd_state f w).
Proof. world w. exact id. Qed.

Lemma refs_bound_upd_tasks f w : refs_bound w -> refs_bound (upd_tasks f w).
Proof. world w. exact id. Qed.

Lemma handleTranslateAndSpeak_eq (w : World) :
  refs_bound w ->
  truthy (trim (inputText (state w))) = true ->
  length (inputText (state w)) <= MAX_INPUT_LENGTH ->
  handleTranslateAndSpeak w = (Normal tt, launched w).
Proof.
  intros Hb Ht Hl. unfold handleTranslateAndSpeak.
  unfold bind at 1, read at 1. rewrite Ht. cbn [negb].
  destruct (Nat.ltb_spec MAX_INPUT_LENGTH (length (inputText (state w)))); [lia|].
  unfold bind at 1, setState at 1, modify at 1. cbv beta iota.
  rewrite stopAudio_then by (apply refs_bound_upd_state; exact Hb).
  reflexivity.
Qed.

Lemma getAudioContext_eq (w : World) :
  getAudioContext w = (Normal (the_ctx w), ensured w).
Proof.
  world w. unfold getAudioContext, the_ctx, ensured. js_unfold. simpl.
  destruct cr; reflexivity.
Qed.

Lemma after_translation_resolved id text lang t (w : World) :
  after_translation id text lang (Resolved t) w
  = (Normal tt, speech_requested id text lang t w).
Proof.
  unfold after_translation, speech_requested.
  unfold bind at 1, repark at 1, modify at 1.
  unfold try_catch at 1. unfold bind at 1, await, ret.
  unfold bind at 1, setState at 1, modify at 1.
  unfold try_catch, bind. rewrite getAudioContext_eq.
  reflexivity.
Qed.

Lemma after_translation_rejected id text lang err (w : World) :
  after_translation id text lang (Rejected err) w
  = (Normal tt, upd_state (failed_fields (message_or err NoticeProcessingFailed))
                  (upd_tasks (fun l => <[id := Settled]> l) w)).
Proof. reflexivity. Qed.

Lemma after_speech_resolved id c b (w : World) :
  refs_bound w -> c < length (contexts w) ->
  after_speech id c (Resolved b) w
  = (Normal tt, played b c (upd_state (audio_fields b)
                              (upd_tasks (fun l => <[id := Settled]> l) w))).
Proof.
  intros Hb Hc. unfold after_speech.
  unfold bind at 1, repark at 1, modify at 1.
  unfold try_catch. unfold bind at 1, await, ret.
  unfold bind at 1, setState at 1, modify at 1.
  rewrite playAudio_eq; [reflexivity| |].
  - apply refs_bound_upd_state, refs_bound_upd_tasks, Hb.
  - world w. exact Hc.
Qed.

Lemma after_speech_rejected id c err (w : World) :
  after_speech id c (Rejected err) w
  = (Normal tt, upd_state (failed_fields (NoticeSpeechFailed err))
                  (upd_tasks (fun l => <[id := Settled]> l) w)).
Proof. reflexivity. Qed.

(** ** The pipeline keeps the invariant *)

Lemma flight_pos (l : list Task) i t :
  l !! i = Some t -> in_flight t = true -> 1 <= length (List.filter in_flight l).
Proof.
  intros Hi Ht. destruct (length (List.filter in_flight l)) eqn:E; [|lia].
  rewrite (filter_zero_lookup in_flight l i t E Hi) in Ht. discriminate.
Qed.

Lemma settle_count (l : list Task) i t :
  l !! i = Some t -> in_flight t = true ->
  length (List.filter in_flight l) <= 1 ->
  length (List.filter in_flight (<[i := Settled]> l)) = 0.
Proof.
  intros Hi Ht Hle. pose proof (filter_insert_count in_flight l i t Settled Hi) as H.
  rewrite Ht in H. simpl in H. lia.
Qed.

Lemma settle_idle_count (l : list Task) i t :
  l !! i = Some t -> in_flight t = false ->
  length (List.filter in_flight (<[i := Settled]> l)) = length (List.filter in_flight l).
Proof.
  intros Hi Ht. pose proof (filter_insert_count in_flight l i t Settled Hi) as H.
  rewrite Ht in H. simpl in H. lia.
Qed.

Lemma repark_count (l : list Task) i t :
  i < length l ->
  length (List.filter in_flight (<[i := Settled]> l)) = 0 ->
  length (List.filter in_flight (<[i := t]> (<[i := Settled]> l))) = Nat.b2n (in_flight t).
Proof.
  intros Hi H0.
  assert (Hl : <[i := Settled]> l !! i = Some Settled)
    by (apply list_lookup_insert_eq; exact Hi).
  pose proof (filter_insert_count in_flight _ i Settled t Hl) as H. simpl in H. lia.
Qed.

Lemma only_flight (l : list Task) i j t u :
  length (List.filter in_flight (<[i := Settled]> l)) = 0 ->
  <[i := t]> (<[i := Settled]> l) !! j = Some u ->
  in_flight u = true -> j = i /\ u = t.
Proof.
  intros H0 Hj Hu. apply list_lookup_insert_Some in Hj.
  destruct Hj as [(-> & -> & _)|(Hne & Hj)]; [split; reflexivity|].
  rewrite (filter_zero_lookup in_flight _ j u H0 Hj) in Hu. discriminate.
Qed.

Lemma pipe_state (f : AppState -> AppState) (w : World) :
  PipeInv w ->
  isProcessing (f (state w)) = isProcessing (state w) ->
  result (f (state w)) = result (state w) \/ result (f (state w)) = None ->
  PipeInv (upd_state f w).
Proof.
  intros [I1 I2 I3 I4 I5 I6] Hp Hr. world w.
  unfold runs_in_flight, has_audio, bound_buffer in *. simpl in *.
  constructor; unfold runs_in_flight, has_audio, bound_buffer; simpl.
  - exact I1.
  - rewrite Hp. exact I2.
  - exact I3.
  - intros id text lang Hid. destruct Hr as [-> | ->]; eauto.
  - intros id t c r Hid. destruct Hr as [-> | ->]; [eauto|discriminate].
  - destruct Hr as [-> | ->]; [exact I6|discriminate].
Qed.

Lemma pipe_idle_tasks (g : list Task -> list Task) (w : World) :
  PipeInv w ->
  (forall i t, g (tasks w) !! i = Some t -> in_flight t = true ->
               tasks w !! i = Some t) ->
  length (List.filter in_flight (g (tasks w)))
  = length (List.filter in_flight (tasks w)) ->
  PipeInv (upd_tasks g w).
Proof.
  intros [I1 I2 I3 I4 I5 I6] Hg Hn. world w.
  unfold runs_in_flight, has_audio, bound_buffer in *. simpl in *.
  constructor; unfold runs_in_flight, has_audio, bound_buffer; simpl;
    rewrite ?Hn; try assumption.
  - intros id t c Hid. apply (I3 id t c). apply Hg; [exact Hid|reflexivity].
  - intros id text lang Hid. apply (I4 id text lang). apply Hg; [exact Hid|reflexivity].
  - intros id t c r Hid. apply (I5 id t c r). apply Hg; [exact Hid|reflexivity].
Qed.

Lemma pipe_park_extraction file (w : World) :
  PipeInv w -> PipeInv (upd_tasks (fun l => l ++ [AwaitExtraction file]) w).
Proof.
  intros I. apply pipe_idle_tasks; [exact I| |].
  - intros i t Hi Ht. apply lookup_app_Some in Hi.
    destruct Hi as [Hi|[_ Hi]]; [exact Hi|].
    apply list_lookup_singleton_Some in Hi. destruct Hi as [_ <-]. discriminate.
  - rewrite filter_snoc_count. simpl. lia.
Qed.

Lemma pipe_settle_extraction id file (w : World) :
  PipeInv w -> tasks w !! id = Some (AwaitExtraction file) ->
  PipeInv (upd_tasks (fun l => <[id := Settled]> l) w).
Proof.
  intros I Hid. apply pipe_idle_tasks; [exact I| |].
  - intros i t Hi Ht. apply list_lookup_insert_Some in Hi.
    destruct Hi as [(_ & <- & _)|(_ & Hi)]; [discriminate|exact Hi].
  - apply (settle_idle_count _ _ _ Hid). reflexivity.
Qed.

Lemma pipe_launched (w : World) :
  PipeInv w -> isProcessing (state w) = false -> PipeInv (launched w).
Proof.
  intros [I1 I2 I3 I4 I5 I6] Hp. specialize (I2 Hp).
  destruct (stopped_fields (upd_state start_fields w)) as (Hs & Ht & _ & Hc & _).
  unfold launched. revert Hs Ht Hc. generalize (stopped (upd_state start_fields w)).
  intros w' Hs Ht Hc. destruct w'. world w.
  unfold runs_in_flight, has_audio, bound_buffer in *. simpl in *. subst.
  constructor; unfold runs_in_flight, has_audio, bound_buffer; simpl.
  - rewrite filter_snoc_count. simpl. lia.
  - discriminate.
  - intros id t c Hid. apply lookup_app_Some in Hid.
    destruct Hid as [Hid|[_ Hid]]; [eauto|].
    apply list_lookup_singleton_Some in Hid. destruct Hid as [_ Hid]. discriminate.
  - reflexivity.
  - discriminate.
  - discriminate.
Qed.

Lemma pipe_failed n id t (w : World) :
  PipeInv w -> tasks w !! id = Some t -> in_flight t = true ->
  PipeInv (upd_state (failed_fields n) (upd_tasks (fun l => <[id := Settled]> l) w)).
Proof.
  intros [I1 I2 I3 I4 I5 I6] Hid Ht. world w.
  unfold runs_in_flight, has_audio, bound_buffer in *. simpl in *.
  pose proof (settle_count _ _ _ Hid Ht I1) as H0.
  assert (Hnone : forall j u, <[id := Settled]> ts !! j = Some u -> in_flight u = false)
    by (intros j u Hj; exact (filter_zero_lookup in_flight _ j u H0 Hj)).
  constructor; unfold runs_in_flight, has_audio, bound_buffer; simpl.
  - lia.
  - intros _. exact H0.
  - intros j u c Hj. discriminate (Hnone _ _ Hj).
  - intros j text lang Hj. discriminate (Hnone _ _ Hj).
  - intros j u c r Hj. discriminate (Hnone _ _ Hj).
  - exact I6.
Qed.

Lemma ensured_ref (w : World) : audioContextRef (ensured w) = Some (the_ctx w).
Proof. world w. unfold ensured, the_ctx. simpl. destruct cr; reflexivity. Qed.

Lemma ensured_fields (w : World) :
  state (ensured w) = state w /\ tasks (ensured w) = tasks w /\
  calls (ensured w) = calls w /\ sources (ensured w) = sources w /\
  audioSourceRef (ensured w) = audioSourceRef w /\
  unhandled (ensured w) = unhandled w /\
  isPlaying (ensured w) = isPlaying w /\ isPaused (ensured w) = isPaused w /\
  isExtracting (ensured w) = isExtracting w.
Proof. world w. unfold ensured. simpl. destruct cr; repeat split; reflexivity. Qed.

Lemma ensured_audio (w : World) : AudioInv w -> AudioInv (ensured w).
Proof.
  intros [I1 I2 I3 I4 I5 I6]. world w. unfold ctx_singleton, ensured in *. simpl in *.
  destruct cr as [c|]; simpl; [constructor; assumption|].
  subst cs. constructor; audio_goal.
  rewrite List.filter_app, List.length_app. simpl in *. lia.
Qed.

Lemma pipe_speech_requested id text lang t (w : World) :
  PipeInv w -> tasks w !! id = Some (AwaitTranslation text lang) ->
  PipeInv (speech_requested id text lang t w).
Proof.
  intros [I1 I2 I3 I4 I5 I6] Hid. unfold speech_requested.
  set (w0 := upd_state (translated_fields text t lang)
               (upd_tasks (fun l => <[id := Settled]> l) w)).
  pose proof (ensured_ref w0) as Hc.
  destruct (ensured_fields w0) as (Hs & Ht & _).
  assert (Hs0 : state w0 = translated_fields text t lang (state w))
    by (destruct w; reflexivity).
  assert (Ht0 : tasks w0 = <[id := Settled]> (tasks w))
    by (destruct w; reflexivity).
  rewrite Hs0 in Hs. rewrite Ht0 in Ht. clear Hs0 Ht0.
  revert Hc Hs Ht. generalize (the_ctx w0) (ensured w0). clear w0.
  intros c w1 Hc Hs Ht. destruct w1. world w.
  unfold runs_in_flight, has_audio, bound_buffer in *. simpl in *. subst.
  pose proof (settle_count _ _ _ Hid eq_refl I1) as H0.
  pose proof (lookup_lt_Some _ _ _ Hid) as Hlt.
  assert (Hproc : isProcessing st = true).
  { destruct (isProcessing st) eqn:E; [reflexivity|].
    pose proof (flight_pos _ _ _ Hid eq_refl). specialize (I2 eq_refl). lia. }
  constructor; unfold runs_in_flight, has_audio, bound_buffer; simpl.
  - rewrite repark_count by assumption. simpl. lia.
  - rewrite Hproc. discriminate.
  - intros j u c' Hj. destruct (only_flight _ _ _ _ _ H0 Hj eq_refl) as [_ E].
    injection E as _ <-. reflexivity.
  - intros j text' lang' Hj. destruct (only_flight _ _ _ _ _ H0 Hj eq_refl) as [_ E].
    discriminate E.
  - intros j u c' r Hj Hr. destruct (only_flight _ _ _ _ _ H0 Hj eq_refl) as [_ E].
    injection E as <- _. injection Hr as <-. split; reflexivity.
  - discriminate.
Qed.

Lemma audio_upd_state f w : AudioInv w -> AudioInv (upd_state f w).
Proof. apply audio_frame; world w; reflexivity. Qed.

Lemma audio_upd_tasks f w : AudioInv w -> AudioInv (upd_tasks f w).
Proof. apply audio_frame; world w; reflexivity. Qed.

Lemma audio_upd_calls f w : AudioInv w -> AudioInv (upd_calls f w).
Proof. apply audio_frame; world w; reflexivity. Qed.

Lemma audio_upd_isExtracting v w : AudioInv w -> AudioInv (upd_isExtracting v w).
Proof. apply audio_frame; world w; reflexivity. Qed.

Lemma audio_upd_isPlaying v w : AudioInv w -> AudioInv (upd_isPlaying v w).
Proof. apply audio_frame; world w; reflexivity. Qed.

Lemma audio_upd_isPaused v w : AudioInv w -> AudioInv (upd_isPaused v w).
Proof. apply audio_frame; world w; reflexivity. Qed.

Lemma pipe_upd_calls f w : PipeInv w -> PipeInv (upd_calls f w).
Proof. apply pipe_frame; world w; reflexivity. Qed.

Lemma pipe_upd_isExtracting v w : PipeInv w -> PipeInv (upd_isExtracting v w).
Proof. apply pipe_frame; world w; reflexivity. Qed.

Lemma pipe_upd_isPlaying v w : PipeInv w -> PipeInv (upd_isPlaying v w).
Proof. apply pipe_frame; world w; reflexivity. Qed.

Lemma pipe_upd_isPaused v w : PipeInv w -> PipeInv (upd_isPaused v w).
Proof. apply pipe_frame; world w; reflexivity. Qed.

Lemma pipe_upd_sources f w : PipeInv w -> PipeInv (upd_sources f w).
Proof. apply pipe_frame; world w; reflexivity. Qed.

Lemma pipe_stopped w : PipeInv w -> PipeInv (stopped w).
Proof.
  destruct (stopped_fields w) as (Hs & Ht & _ & Hc & _).
  apply pipe_frame; assumption.
Qed.

Lemma pipe_played b c w : PipeInv w -> PipeInv (played b c w).
Proof.
  destruct (played_fields b c w) as (Hs & Ht & _ & Hc & _).
  apply pipe_frame; assumption.
Qed.

Lemma pipe_audio_ready b id t c (w : World) :
  PipeInv w -> tasks w !! id = Some (AwaitSpeech t c) ->
  PipeInv (upd_state (audio_fields b) (upd_tasks (fun l => <[id := Settled]> l) w)).
Proof.
  intros [I1 I2 I3 I4 I5 I6] Hid. world w.
  unfold runs_in_flight, has_audio, bound_buffer in *. simpl in *.
  pose proof (settle_count _ _ _ Hid eq_refl I1) as H0.
  assert (Hnone : forall j u, <[id := Settled]> ts !! j = Some u -> in_flight u = false)
    by (intros j u Hj; exact (filter_zero_lookup in_flight _ j u H0 Hj)).
  constructor; unfold runs_in_flight, has_audio, bound_buffer; simpl.
  - lia.
  - intros _. exact H0.
  - intros j u c' Hj. discriminate (Hnone _ _ Hj).
  - intros j text lang Hj. discriminate (Hnone _ _ Hj).
  - intros j u c' r Hj. discriminate (Hnone _ _ Hj).
  - intros _. rewrite (I3 _ _ _ Hid). discriminate.
Qed.

(** ** Every event keeps the invariant *)

Lemma inv_handlePause w : Inv w -> Inv (top_level handlePause w).
Proof.
  intros [IA IP]. split.
  - destruct IA as [I1 I2 I3 I4 I5 I6]. world w. unfold ctx_singleton in *.
    simpl in *. unfold top_level, exec, handlePause. js_unfold. simpl.
    destruct cr as [c|]; simpl; [|constructor; assumption].
    destruct I1 as (-> & x & -> & Hx).
    destruct pl; simpl; [|constructor; audio_goal].
    destruct (ctx_state x) eqn:E; simpl; try congruence; constructor; audio_goal.
  - eapply pipe_frame; [| | |exact IP];
      world w; unfold top_level, exec, handlePause; js_unfold; simpl;
      destruct cr as [c|]; simpl; try reflexivity;
      destruct pl; simpl; try reflexivity;
      destruct (cs !! c) as [x|]; simpl; try reflexivity;
      destruct (ctx_state x); reflexivity.
Qed.

Lemma inv_handleResume w : Inv w -> Inv (top_level handleResume w).
Proof.
  intros [IA IP]. split.
  - destruct IA as [I1 I2 I3 I4 I5 I6]. world w. unfold ctx_singleton in *.
    simpl in *. unfold top_level, exec, handleResume. js_unfold. simpl.
    destruct cr as [c|]; simpl; [|constructor; assumption].
    destruct I1 as (-> & x & -> & Hx).
    destruct pa; simpl; [|constructor; audio_goal].
    destruct (ctx_state x) eqn:E; simpl; try congruence; constructor; audio_goal.
  - eapply pipe_frame; [| | |exact IP];
      world w; unfold top_level, exec, handleResume; js_unfold; simpl;
      destruct cr as [c|]; simpl; try reflexivity;
      destruct pa; simpl; try reflexivity;
      destruct (cs !! c) as [x|]; simpl; try reflexivity;
      destruct (ctx_state x); reflexivity.
Qed.

Lemma ended_excl h (ss : list SourceNode) (sr : option nat) :
  (forall j s, ss !! j = Some s -> sounding s = true -> sr = Some j) ->
  forall j s, alter put_ended h ss !! j = Some s -> sounding s = true -> sr = Some j.
Proof.
  intros I3 j s Hj Hs. destruct (decide (h = j)) as [->|Hne].
  - rewrite list_lookup_alter_eq in Hj.
    destruct (ss !! j) as [s0|]; [|discriminate]. injection Hj as <-.
    rewrite sounding_put_ended in Hs. discriminate.
  - rewrite list_lookup_alter_ne in Hj by exact Hne. eauto.
Qed.

Lemma inv_dispatch_ended h w : Inv w -> Inv (top_level (dispatch_ended h) w).
Proof.
  intros [IA IP]. split.
  - destruct IA as [I1 I2 I3 I4 I5 I6]. world w. unfold ctx_singleton in *.
    simpl in *. unfold top_level, exec, dispatch_ended, run_handler. js_unfold. simpl.
    destruct (ss !! h) as [s|] eqn:Hh; simpl; [|constructor; assumption].
    destruct (src_started s && negb (src_ended s)); simpl; [|constructor; assumption].
    destruct (onended s) as [[]|]; simpl; constructor; audio_goal;
      try (destruct sr; simpl in *; rewrite ?length_alter; assumption);
      apply ended_excl; assumption.
  - eapply pipe_frame; [| | |exact IP];
      world w; unfold top_level, exec, dispatch_ended, run_handler; js_unfold; simpl;
      destruct (ss !! h) as [s|]; simpl; try reflexivity;
      destruct (src_started s && negb (src_ended s)); simpl; try reflexivity;
      destruct (onended s) as [[]|]; reflexivity.
Qed.

Lemma inv_stopped w : Inv w -> Inv (stopped w).
Proof. intros [IA IP]. split; [apply stopped_audio|apply pipe_stopped]; assumption. Qed.

Lemma inv_played b c w : Inv w -> audioContextRef w = Some c -> Inv (played b c w).
Proof.
  intros [IA IP] Hc. split; [apply played_audio|apply pipe_played]; assumption.
Qed.

Lemma inv_upd_state f w :
  Inv w ->
  isProcessing (f (state w)) = isProcessing (state w) ->
  result (f (state w)) = result (state w) \/ result (f (state w)) = None ->
  Inv (upd_state f w).
Proof.
  intros [IA IP] Hp Hr. split; [apply audio_upd_state|apply pipe_state]; assumption.
Qed.

Lemma has_audio_ctx w :
  Inv w -> has_audio w = true ->
  exists b c, bound_buffer w = Some b /\ audioContextRef w = Some c.
Proof.
  intros [IA IP] H. pose proof (inv_audio w IP H) as Hc.
  unfold has_audio in H. destruct (bound_buffer w) as [b|]; [|discriminate].
  destruct (audioContextRef w) as [c|]; [|congruence]. eauto.
Qed.

Lemma handleReplay_eq w b c :
  Inv w -> bound_buffer w = Some b -> audioContextRef w = Some c ->
  handleReplay w = (Normal tt, played b c w).
Proof.
  intros [IA IP] Hb Hc. unfold handleReplay, bind, read. rewrite Hb, Hc.
  unfold detached. rewrite playAudio_eq; [reflexivity| |].
  - apply audio_refs_bound, IA.
  - apply audio_ctx_bound; assumption.
Qed.

Lemma step_inv ev w : Inv w -> Inv (step ev w).
Proof.
  intros I. destruct ev as [v| |file|lang| | | | |id o|id o|id o|h]; simpl.
  - (* Input *)
    apply inv_upd_state; [exact I|reflexivity|left; reflexivity].
  - (* ClickClear *)
    destruct (truthy _); [|exact I].
    apply inv_upd_state; [exact I|reflexivity|right; reflexivity].
  - (* ChooseFile *)
    unfold top_level, exec, detached, handleFile.
    destruct (validFileType file); simpl;
      [|apply inv_upd_state; [exact I|reflexivity|left; reflexivity]].
    destruct (validFileSize file); simpl;
      [|apply inv_upd_state; [exact I|reflexivity|left; reflexivity]].
    destruct I as [IA IP]. split.
    + apply audio_upd_tasks, audio_upd_calls, audio_upd_state,
        audio_upd_isExtracting, IA.
    + apply pipe_park_extraction, pipe_upd_calls, pipe_state;
        [apply pipe_upd_isExtracting, IP| |]; world w;
        [reflexivity|right; reflexivity].
  - (* SelectLanguage *)
    apply inv_upd_state; [exact I|reflexivity|right; reflexivity].
  - (* ClickStart *)
    destruct (start_disabled w) eqn:Hd; [exact I|].
    unfold start_disabled in Hd. apply orb_false_elim in Hd as [Hd Htrim].
    apply orb_false_elim in Hd as [Hproc _]. apply negb_false_iff in Htrim.
    destruct (Nat.ltb_spec MAX_INPUT_LENGTH (length (inputText (state w))))
      as [Hlong|Hshort].
    + unfold top_level, exec, detached, handleTranslateAndSpeak, bind, read.
      rewrite Htrim. simpl negb. cbv iota.
      apply Nat.ltb_lt in Hlong. rewrite Hlong. simpl.
      apply inv_upd_state; [exact I|reflexivity|left; reflexivity].
    + erewrite top_level_normal
        by (apply handleTranslateAndSpeak_eq;
            [apply audio_refs_bound, I|exact Htrim|exact Hshort]).
      destruct I as [IA IP]. split.
      * apply audio_upd_tasks, audio_upd_calls, stopped_audio, audio_upd_state, IA.
      * apply pipe_launched; assumption.
  - (* ClickPauseResume *)
    destruct (transport_shown w); [|exact I].
    destruct (isPlaying w); [apply inv_handlePause|apply inv_handleResume]; exact I.
  - (* ClickStop *)
    destruct (transport_shown w); [|exact I].
    erewrite top_level_normal by (apply stopAudio_eq, audio_refs_bound, I).
    apply inv_stopped, I.
  - (* ClickReplay *)
    destruct (replay_shown w) eqn:Hr; [|exact I].
    unfold replay_shown in Hr. apply andb_true_iff in Hr as [Ha _].
    destruct (has_audio_ctx w I Ha) as (b & c & Hb & Hc).
    erewrite top_level_normal by (apply handleReplay_eq; eassumption).
    apply inv_played; assumption.
  - (* TranslationSettled *)
    destruct (tasks w !! id) as [[text lang| | |]|] eqn:Hid; try exact I.
    destruct o as [t|err].
    + erewrite top_level_normal by apply after_translation_resolved.
      destruct I as [IA IP]. split.
      * unfold speech_requested.
        apply audio_upd_tasks, audio_upd_calls, ensured_audio, audio_upd_state,
          audio_upd_tasks, IA.
      * apply pipe_speech_requested; assumption.
    + erewrite top_level_normal by apply after_translation_rejected.
      destruct I as [IA IP]. split.
      * apply audio_upd_state, audio_upd_tasks, IA.
      * eapply pipe_failed; [exact IP|exact Hid|reflexivity].
  - (* SpeechSettled *)
    destruct (tasks w !! id) as [[|t c| |]|] eqn:Hid; try exact I.
    destruct I as [IA IP]. pose proof (inv_speech_ctx w IP id t c Hid) as Hc.
    destruct o as [b|err].
    + erewrite top_level_normal
        by (apply after_speech_resolved;
            [apply audio_refs_bound, IA|apply audio_ctx_bound; assumption]).
      apply inv_played.
      * split; [apply audio_upd_state, audio_upd_tasks, IA|].
        eapply pipe_audio_ready; eassumption.
      * world w. exact Hc.
    + erewrite top_level_normal by apply after_speech_rejected.
      split.
      * apply audio_upd_state, audio_upd_tasks, IA.
      * eapply pipe_failed; [exact IP|exact Hid|reflexivity].
  - (* ExtractionSettled *)
    destruct (tasks w !! id) as [[| |file|]|] eqn:Hid; try exact I.
    destruct I as [IA IP].
    assert (I1 : Inv (upd_tasks (fun l => <[id := Settled]> l) w)).
    { split; [apply audio_upd_tasks, IA|eapply pipe_settle_extraction; eassumption]. }
    unfold top_level, exec, detached, after_extraction. js_unfold.
    destruct o as [extracted|err]; simpl.
    + destruct (MAX_INPUT_LENGTH <? length extracted); simpl.
      * destruct (inv_upd_state
          (fun prev => with_error (Some NoticeFileTruncated)
             (with_inputText (slice0 MAX_INPUT_LENGTH extracted) prev)) _ I1)
          as [JA JP]; [reflexivity|left; reflexivity|].
        split; [apply audio_upd_isExtracting, JA|apply pipe_upd_isExtracting, JP].
      * destruct (inv_upd_state (with_inputText extracted) _ I1)
          as [JA JP]; [reflexivity|left; reflexivity|].
        split; [apply audio_upd_isExtracting, JA|apply pipe_upd_isExtracting, JP].
    + destruct (inv_upd_state
          (with_error (Some (message_or err NoticeFileReadFailed))) _ I1)
          as [JA JP]; [reflexivity|left; reflexivity|].
      split; [apply audio_upd_isExtracting, JA|apply pipe_upd_isExtracting, JP].
  - (* Ended *)
    apply inv_dispatch_ended, I.
Qed.

Lemma run_inv evs w : Inv w -> Inv (run evs w).
Proof.
  revert w. induction evs as [|ev evs IH]; intros w I; simpl; [exact I|].
  apply IH, step_inv, I.
Qed.

Lemma reachable_inv evs : Inv (run evs initial).
Proof. apply run_inv, initial_inv. Qed.

Lemma step_spec_eq ev w : Inv w -> step ev w = step_spec ev w.
Proof.
  intros I. destruct ev as [v| |file|lang| | | | |id o|id o|id o|h];
    try reflexivity; simpl.
  - destruct (start_disabled w) eqn:Hd; [reflexivity|].
    unfold start_disabled in Hd. apply orb_false_elim in Hd as [_ Htrim].
    apply negb_false_iff in Htrim.
    destruct (Nat.ltb_spec MAX_INPUT_LENGTH (length (inputText (state w))))
      as [Hlong|Hshort].
    + unfold top_level, exec, detached, handleTranslateAndSpeak, bind, read.
      rewrite Htrim. simpl negb. cbv iota.
      apply Nat.ltb_lt in Hlong. rewrite Hlong. reflexivity.
    + apply top_level_normal, handleTranslateAndSpeak_eq;
        [apply audio_refs_bound, I|exact Htrim|exact Hshort].
  - destruct (transport_shown w); [|reflexivity].
    apply top_level_normal, stopAudio_eq, audio_refs_bound, I.
  - destruct (replay_shown w) eqn:Hr; [|reflexivity].
    unfold replay_shown in Hr. apply andb_true_iff in Hr as [Ha _].
    destruct (has_audio_ctx w I Ha) as (b & c & Hb & Hc). rewrite Hb, Hc.
    apply top_level_normal, handleReplay_eq; assumption.
  - destruct (tasks w !! id) as [[text lang| | |]|] eqn:Hid; try reflexivity.
    destruct o as [t|err]; apply top_level_normal;
      [apply after_translation_resolved|apply after_translation_rejected].
  - destruct (tasks w !! id) as [[|t c| |]|] eqn:Hid; try reflexivity.
    destruct I as [IA IP]. pose proof (inv_speech_ctx w IP id t c Hid) as Hc.
    destruct o as [b|err]; apply top_level_normal;
      [|apply after_speech_rejected].
    apply after_speech_resolved;
      [apply audio_refs_bound, IA|apply audio_ctx_bound; assumption].
Qed.

(** What the transport handlers and the [ended] event leave alone. *)
Lemma transport_frame (m : Js unit) (w : World) :
  m = handlePause \/ m = handleResume \/ (exists h, m = dispatch_ended h) ->
  state (top_level m w) = state w /\ tasks (top_level m w) = tasks w /\
  calls (top_level m w) = calls w /\
  audioContextRef (top_level m w) = audioContextRef w /\
  audioSourceRef (top_level m w) = audioSourceRef w /\
  isExtracting (top_level m w) = isExtracting w.
Proof.
  intros [-> | [-> | [h ->]]]; world w;
    unfold top_level, exec, handlePause, handleResume, dispatch_ended, run_handler;
    js_unfold; simpl.
  - destruct cr as [c|]; simpl; [|repeat split; reflexivity].
    destruct pl; simpl; [|repeat split; reflexivity].
    destruct (cs !! c) as [x|]; simpl; [|repeat split; reflexivity].
    destruct (ctx_state x); repeat split; reflexivity.
  - destruct cr as [c|]; simpl; [|repeat split; reflexivity].
    destruct pa; simpl; [|repeat split; reflexivity].
    destruct (cs !! c) as [x|]; simpl; [|repeat split; reflexivity].
    destruct (ctx_state x); repeat split; reflexivity.
  - destruct (ss !! h) as [s|]; simpl; [|repeat split; reflexivity].
    destruct (src_started s && negb (src_ended s)); simpl; [|repeat split; reflexivity].
    destruct (onended s) as [[]|]; repeat split; reflexivity.
Qed.

(** * Input staging *)

(** C1 (as the code has it): text extracted from an uploaded file that is
    longer than [MAX_INPUT_LENGTH] is cut to exactly its first
    [MAX_INPUT_LENGTH] code units and the truncation notice is set; extracted
    text within the limit is stored unchanged and no notice is set.  Typed
    text is stored unchanged whatever its length, and starting the pipeline on
    a text longer than the limit is refused with the too-long notice: nothing
    is called, nothing is parked, the text is left as it is. *)
Theorem staging_by_origin (w : World) (id : nat) (file : File)
    (extracted value : jsstring) :
  tasks w !! id = Some (AwaitExtraction file) ->
  let w' := step (ExtractionSettled id (Resolved extracted)) w in
  (MAX_INPUT_LENGTH < length extracted ->
     inputText (state w') = slice0 MAX_INPUT_LENGTH extracted /\
     length (inputText (state w')) = MAX_INPUT_LENGTH /\
     error (state w') = Some NoticeFileTruncated) /\
  (length extracted <= MAX_INPUT_LENGTH ->
     inputText (state w') = extracted /\ error (state w') = error (state w)) /\
  inputText (state (step (Input value) w)) = value /\
  (MAX_INPUT_LENGTH < length (inputText (state w)) ->
     let w2 := step ClickStart w in
     inputText (state w2) = inputText (state w) /\
     tasks w2 = tasks w /\ calls w2 = calls w /\
     (start_disabled w = false ->
        error (state w2) = Some (NoticeInputTooLong (length (inputText (state w)))) /\
        isProcessing (state w2) = isProcessing (state w))).
Proof.
  intros Hid w'. subst w'. simpl. rewrite Hid.
  unfold top_level, exec, detached, after_extraction. js_unfold.
  repeat split.
  - apply Nat.ltb_lt in H. rewrite H. world w. reflexivity.
  - pose proof H as H'. apply Nat.ltb_lt in H'. rewrite H'. world w.
    change (length (firstn MAX_INPUT_LENGTH extracted) = MAX_INPUT_LENGTH).
    rewrite List.length_firstn. lia.
  - apply Nat.ltb_lt in H. rewrite H. world w. reflexivity.
  - apply Nat.ltb_ge in H. rewrite H. world w. reflexivity.
  - apply Nat.ltb_ge in H. rewrite H. world w. reflexivity.
  - world w. reflexivity.
  - destruct (start_disabled w); [reflexivity|].
    unfold handleTranslateAndSpeak, bind, read.
    destruct (negb _); [world w; reflexivity|].
    apply Nat.ltb_lt in H. rewrite H. world w. reflexivity.
  - destruct (start_disabled w); [reflexivity|].
    unfold handleTranslateAndSpeak, bind, read.
    destruct (negb _); [world w; reflexivity|].
    apply Nat.ltb_lt in H. rewrite H. world w. reflexivity.
  - destruct (start_disabled w); [reflexivity|].
    unfold handleTranslateAndSpeak, bind, read.
    destruct (negb _); [world w; reflexivity|].
    apply Nat.ltb_lt in H. rewrite H. world w. reflexivity.
  - rewrite H0. unfold start_disabled in H0.
    apply orb_false_elim in H0 as [_ Htrim].
    unfold handleTranslateAndSpeak, bind, read. rewrite Htrim.
    apply Nat.ltb_lt in H. rewrite H. world w. reflexivity.
  - rewrite H0. unfold start_disabled in H0.
    apply orb_false_elim in H0 as [_ Htrim].
    unfold handleTranslateAndSpeak, bind, read. rewrite Htrim.
    apply Nat.ltb_lt in H. rewrite H. world w. reflexivity.
Qed.

Lemma staging_by_origin_witness :
  let w := step (ChooseFile a_file) initial in
  tasks w !! 0 = Some (AwaitExtraction a_file) /\
  inputText (state (step (ExtractionSettled 0 (Resolved short_text)) w)) = short_text.
Proof.
  split; [reflexivity|].
  refine (proj1 (proj1 (proj2 (staging_by_origin
            (step (ChooseFile a_file) initial) 0 a_file short_text [] _)) _)).
  - reflexivity.
  - apply Nat.leb_le. vm_compute. reflexivity.
Defined.

(** C1, as stated, fails for typed text: a typed text of 10001 code units
    is staged at its full length with no notice, and the start control then
    refuses it instead of truncating it. *)
Lemma typed_text_is_not_truncated :
  let w := step (Input long_text) initial in
  MAX_INPUT_LENGTH < length long_text /\
  length (inputText (state w)) <> MAX_INPUT_LENGTH /\
  inputText (state w) = long_text /\
  error (state w) = None /\
  let w' := step ClickStart w in
  inputText (state w') = long_text /\
  error (state w') = Some (NoticeInputTooLong 10001) /\
  tasks w' = [] /\ calls w' = [].
Proof.
  assert (Hlen : length long_text = 10001)
    by (apply Nat.eqb_eq; vm_compute; reflexivity).
  assert (Hlong : (MAX_INPUT_LENGTH <? length long_text) = true)
    by (vm_compute; reflexivity).
  assert (Hne : (length long_text =? MAX_INPUT_LENGTH) = false)
    by (vm_compute; reflexivity).
  assert (Htrim : truthy (trim long_text) = true) by (vm_compute; reflexivity).
  cbv zeta. split; [apply Nat.ltb_lt; exact Hlong|].
  split; [apply Nat.eqb_neq; exact Hne|].
  split; [reflexivity|]. split; [reflexivity|].
  change (step (Input long_text) initial)
    with (upd_state (fun prev => with_error None (with_inputText long_text prev))
            initial).
  set (w := upd_state (fun prev => with_error None (with_inputText long_text prev))
              initial).
  assert (E : step ClickStart w
              = upd_state (with_error (Some (NoticeInputTooLong (length long_text)))) w).
  { unfold step, start_disabled.
    change (inputText (state w)) with long_text.
    change (isProcessing (state w)) with false.
    change (isExtracting w) with false.
    rewrite Htrim. cbn [orb negb].
    unfold top_level, exec, detached, handleTranslateAndSpeak, bind, read.
    change (inputText (state w)) with long_text.
    rewrite Htrim, Hlong. reflexivity. }
  rewrite E, Hlen. repeat split; reflexivity.
Qed.

(** * The playback controller *)

Lemma stopped_sources w :
  sources (stopped w) = match audioSourceRef w with
                        | Some h => alter halted h (sources w)
                        | None => sources w
                        end.
Proof.
  world w. unfold stopped, woken, released, resumed, suspended_at. simpl.
  destruct sr, cr; simpl;
    repeat match goal with |- context [if ?b then _ else _] => destruct b end;
    reflexivity.
Qed.

Lemma stopped_contexts w :
  contexts (stopped w) = match audioContextRef w with
                         | Some c =>
                             if suspended_at c w
                             then alter (set_ctx_state Running) c (contexts w)
                             else contexts w
                         | None => contexts w
                         end.
Proof.
  world w. unfold stopped, woken, released, resumed, suspended_at. simpl.
  destruct sr, cr; simpl;
    repeat match goal with |- context [if ?b then _ else _] => destruct b end;
    reflexivity.
Qed.

Lemma stopped_devlog w :
  devlog (stopped w)
  = (devlog w ++ match audioSourceRef w with
                 | Some h => [SetOnended h None; SourceStop h]
                 | None => []
                 end)
    ++ match audioContextRef w with
       | Some c => if suspended_at c w then [CtxResume c] else []
       | None => []
       end.
Proof.
  world w. unfold stopped, woken, released, resumed, suspended_at. simpl.
  destruct sr, cr; simpl;
    repeat match goal with |- context [if ?b then _ else _] => destruct b end;
    rewrite ?app_nil_r; reflexivity.
Qed.


Lemma stopped_not_suspended w c :
  audioContextRef w = Some c -> suspended_at c (stopped w) = false.
Proof.
  intros Hc. unfold suspended_at at 1. rewrite stopped_contexts, Hc.
  destruct (suspended_at c w) eqn:E.
  - rewrite list_lookup_alter_eq. destruct (contexts w !! c); reflexivity.
  - exact E.
Qed.




(** * The pipeline *)








Lemma speech_requested_fields id text lang t (w : World) :
  tasks (speech_requested id text lang t w)
  = <[id := AwaitSpeech t (the_ctx w)]> (<[id := Settled]> (tasks w)) /\
  state (speech_requested id text lang t w) = translated_fields text t lang (state w) /\
  calls (speech_requested id text lang t w) = calls w ++ [GenerateSpeech t (the_ctx w)].
Proof.
  world w. unfold speech_requested, ensured, the_ctx. simpl.
  destruct cr; repeat split; reflexivity.
Qed.

Lemma launched_fields (w : World) :
  tasks (launched w)
  = tasks w ++ [AwaitTranslation (inputText (state w)) (selectedLanguage (state w))] /\
  state (launched w) = start_fields (state w) /\
  calls (launched w)
  = calls w ++ [TranslateSafetyText (inputText (state w)) (selectedLanguage (state w))].
Proof.
  destruct (stopped_fields (upd_state start_fields w)) as (Hs & Ht & Hc & _).
  unfold launched. revert Hs Ht Hc. generalize (stopped (upd_state start_fields w)).
  intros w' Hs Ht Hc. destruct w'. world w. simpl in *. subst.
  repeat split; reflexivity.
Qed.

Lemma settled_insert (l : list Task) id j t u :
  l !! id = Some Settled -> l !! j = Some t -> t <> Settled ->
  <[j := u]> l !! id = Some Settled.
Proof.
  intros Hid Hj Ht. rewrite list_lookup_insert_ne; [exact Hid|].
  intros ->. rewrite Hid in Hj. injection Hj as <-. exact (Ht eq_refl).
Qed.

Lemma settled_step ev w id :
  Inv w -> tasks w !! id = Some Settled -> tasks (step ev w) !! id = Some Settled.
Proof.
  intros I Hs. rewrite step_spec_eq by exact I.
  destruct ev as [v| |file|lang| | | | |j o|j o|j o|h]; simpl.
  - world w. exact Hs.
  - destruct (truthy _); [|exact Hs]. world w. exact Hs.
  - unfold top_level, exec, detached, handleFile.
    destruct (validFileType file); simpl; [|world w; exact Hs].
    destruct (validFileSize file); simpl; [|world w; exact Hs].
    world w. simpl in *. apply lookup_app_l_Some, Hs.
  - world w. exact Hs.
  - destruct (start_disabled w); [exact Hs|].
    destruct (_ <? _); [world w; exact Hs|].
    destruct (launched_fields w) as (Ht & _). rewrite Ht.
    apply lookup_app_l_Some, Hs.
  - destruct (transport_shown w); [|exact Hs].
    destruct (isPlaying w).
    + destruct (transport_frame handlePause w) as (_ & Ht & _); [auto|].
      rewrite Ht. exact Hs.
    + destruct (transport_frame handleResume w) as (_ & Ht & _); [auto|].
      rewrite Ht. exact Hs.
  - destruct (transport_shown w); [|exact Hs].
    destruct (stopped_fields w) as (_ & Ht & _). rewrite Ht. exact Hs.
  - destruct (replay_shown w); [|exact Hs].
    destruct (bound_buffer w) as [b|]; [|exact Hs].
    destruct (audioContextRef w) as [c|]; [|exact Hs].
    destruct (played_fields b c w) as (_ & Ht & _). rewrite Ht. exact Hs.
  - destruct (tasks w !! j) as [[text lang| | |]|] eqn:Hj; try exact Hs.
    destruct o as [t|err].
    + destruct (speech_requested_fields j text lang t w) as (Ht & _). rewrite Ht.
      rewrite list_insert_insert_eq.
      eapply settled_insert; [exact Hs|exact Hj|discriminate].
    + world w. simpl in *.
      eapply settled_insert; [exact Hs|exact Hj|discriminate].
  - destruct (tasks w !! j) as [[|t c| |]|] eqn:Hj; try exact Hs.
    destruct o as [b|err].
    + destruct (played_fields b c (upd_state (audio_fields b)
                  (upd_tasks (fun l => <[j := Settled]> l) w))) as (_ & Ht & _).
      rewrite Ht. world w. simpl in *.
      eapply settled_insert; [exact Hs|exact Hj|discriminate].
    + world w. simpl in *.
      eapply settled_insert; [exact Hs|exact Hj|discriminate].
  - destruct (tasks w !! j) as [[| |file|]|] eqn:Hj; try exact Hs.
    assert (H : <[j := Settled]> (tasks w) !! id = Some Settled)
      by (eapply settled_insert; [exact Hs|exact Hj|discriminate]).
    unfold top_level, exec, detached, after_extraction. js_unfold.
    destruct o as [extracted|err]; simpl.
    + destruct (MAX_INPUT_LENGTH <? length extracted); world w; exact H.
    + world w. exact H.
  - destruct (transport_frame (dispatch_ended h) w) as (_ & Ht & _); [eauto|].
    rewrite Ht. exact Hs.
Qed.

Lemma settled_run evs w id :
  Inv w -> tasks w !! id = Some Settled -> tasks (run evs w) !! id = Some Settled.
Proof.
  revert w. induction evs as [|ev evs IH]; intros w I Hs; [exact Hs|].
  simpl. apply IH; [apply step_inv, I|apply settled_step; assumption].
Qed.

(** C3: when the translation of an invocation fails, the failure notice is
    set ([err.message], or the fallback text), the processing flag is
    cleared, no collaborator is called (so no synthesis is attempted), the
    result was [null] while the translation was awaited and is [null]
    afterwards, no invocation is left in flight, and the invocation is over
    for good: whatever happens later, none of its events is handled again. *)
Theorem translation_failure_ends_run
    (evs evs' : list Event) (id : nat) (text : jsstring) (lang : TargetLanguage)
    (err : JsError) :
  let w := run evs initial in
  tasks w !! id = Some (AwaitTranslation text lang) ->
  let w' := step (TranslationSettled id (Rejected err)) w in
  error (state w') = Some (message_or err NoticeProcessingFailed) /\
  isProcessing (state w') = false /\
  calls w' = calls w /\
  List.filter is_synthesis_call (calls w') = List.filter is_synthesis_call (calls w) /\
  result (state w) = None /\ result (state w') = None /\
  runs_in_flight w' = 0 /\
  tasks (run evs' w') !! id = Some Settled /\
  (forall o, step (TranslationSettled id o) (run evs' w') = run evs' w') /\
  (forall o, step (SpeechSettled id o) (run evs' w') = run evs' w').
Proof.
  intros w Hid w'. pose proof (reachable_inv evs) as I. fold w in I.
  pose proof (step_inv (TranslationSettled id (Rejected err)) w I) as I'.
  fold w' in I'.
  assert (E : w' = upd_state (failed_fields (message_or err NoticeProcessingFailed))
                     (upd_tasks (fun l => <[id := Settled]> l) w)).
  { subst w'. simpl. rewrite Hid. reflexivity. }
  assert (Hnone : result (state w) = None)
    by (destruct I as [_ IP]; exact (inv_translation w IP _ _ _ Hid)).
  assert (Hset : tasks w' !! id = Some Settled).
  { rewrite E. destruct w. simpl in *. apply list_lookup_insert_eq.
    exact (lookup_lt_Some _ _ _ Hid). }
  pose proof (settled_run evs' w' id I' Hset) as Hlater.
  assert (Hp : isProcessing (state w') = false) by (rewrite E; destruct w; reflexivity).
  repeat split.
  - rewrite E. destruct w. reflexivity.
  - exact Hp.
  - rewrite E. destruct w. reflexivity.
  - rewrite E. destruct w. reflexivity.
  - exact Hnone.
  - rewrite E. destruct w. exact Hnone.
  - destruct I' as [_ IP']. exact (inv_proc w' IP' Hp).
  - exact Hlater.
  - intros o. simpl. rewrite Hlater. reflexivity.
  - intros o. simpl. rewrite Hlater. reflexivity.
Qed.

Lemma translation_failure_ends_run_witness :
  tasks (run translating_world initial) !! 0
  = Some (AwaitTranslation short_text CHINESE) /\
  isProcessing (state (step (TranslationSettled 0 (Rejected (ServiceError None)))
                         (run translating_world initial))) = false.
Proof.
  split; [reflexivity|].
  refine (proj1 (proj2 (translation_failure_ends_run translating_world []
            0 short_text CHINESE (ServiceError None) _))).
  reflexivity.
Defined.



(** * One source at a time *)

Lemma played_sources b c w :
  sources (played b c w) = sources (stopped w) ++ [playing_source c b].
Proof.
  unfold played.
  destruct (resumed_fields c (stopped w)) as (_ & _ & _ & _ & _ & _ & _ & Hs & _).
  rewrite <- Hs. generalize (resumed c (stopped w)). intros w'. destruct w'.
  reflexivity.
Qed.

Lemma stopped_length_sources w : length (sources (stopped w)) = length (sources w).
Proof.
  rewrite stopped_sources. destruct (audioSourceRef w); [apply length_alter|reflexivity].
Qed.

Lemma stopped_silent w : AudioInv w -> List.filter sounding (sources (stopped w)) = [].
Proof.
  intros IA. apply stopped_audio in IA. apply filter_none.
  intros i s Hi. destruct (sounding s) eqn:E; [|reflexivity].
  pose proof (inv_excl _ IA i s Hi E) as H.
  destruct (stopped_fields w) as (_ & _ & _ & _ & _ & _ & Hsr & _).
  rewrite Hsr in H. discriminate.
Qed.

Lemma played_sounding b c w :
  AudioInv w -> sounding_sources (played b c w) = [playing_source c b].
Proof.
  intros IA. unfold sounding_sources. rewrite played_sources, List.filter_app.
  rewrite stopped_silent by exact IA. reflexivity.
Qed.


Lemma exec_playAudio b c w :
  Inv w -> audioContextRef w = Some c -> exec (playAudio b c) w = played b c w.
Proof.
  intros [IA IP] Hc. unfold exec. rewrite playAudio_eq; [reflexivity| |].
  - apply audio_refs_bound, IA.
  - apply audio_ctx_bound; assumption.
Qed.



Lemma muted_alter (f : SourceNode -> SourceNode) h j ss :
  (forall s, onended s = None -> onended (f s) = None) ->
  muted h ss -> muted h (alter f j ss).
Proof.
  intros Hf (s & Hs & Hn). destruct (decide (j = h)) as [->|Hne].
  - exists (f s). rewrite list_lookup_alter_eq, Hs. split; [reflexivity|auto].
  - exists s. rewrite list_lookup_alter_ne by exact Hne. split; assumption.
Qed.

Lemma muted_app h ss tl : muted h ss -> muted h (ss ++ tl).
Proof. intros (s & Hs & Hn). exists s. split; [apply lookup_app_l_Some, Hs|exact Hn]. Qed.

Lemma muted_stopped h w : muted h (sources w) -> muted h (sources (stopped w)).
Proof.
  intros H. rewrite stopped_sources. destruct (audioSourceRef w); [|exact H].
  apply muted_alter; [|exact H].
  intros s _. unfold halted. destruct (src_started s); reflexivity.
Qed.

Lemma muted_played h b c w : muted h (sources w) -> muted h (sources (played b c w)).
Proof. intros H. rewrite played_sources. apply muted_app, muted_stopped, H. Qed.

Lemma transport_sources (m : Js unit) (w : World) :
  m = handlePause \/ m = handleResume -> sources (top_level m w) = sources w.
Proof.
  intros [-> | ->]; world w;
    unfold top_level, exec, handlePause, handleResume; js_unfold; simpl.
  - destruct cr as [c|]; simpl; [|reflexivity].
    destruct pl; simpl; [|reflexivity].
    destruct (cs !! c) as [x|]; simpl; [|reflexivity].
    destruct (ctx_state x); reflexivity.
  - destruct cr as [c|]; simpl; [|reflexivity].
    destruct pa; simpl; [|reflexivity].
    destruct (cs !! c) as [x|]; simpl; [|reflexivity].
    destruct (ctx_state x); reflexivity.
Qed.

Lemma ended_sources h w :
  sources (top_level (dispatch_ended h) w) = sources w \/
  sources (top_level (dispatch_ended h) w) = alter put_ended h (sources w).
Proof.
  world w. unfold top_level, exec, dispatch_ended, run_handler. js_unfold. simpl.
  destruct (ss !! h) as [s|]; simpl; [|left; reflexivity].
  destruct (src_started s && negb (src_ended s)); simpl; [|left; reflexivity].
  destruct (onended s) as [[]|]; right; reflexivity.
Qed.

Lemma muted_step ev w h : Inv w -> muted h (sources w) -> muted h (sources (step ev w)).
Proof.
  intros I Hm. rewrite step_spec_eq by exact I.
  destruct ev as [v| |file|lang| | | | |j o|j o|j o|k]; simpl.
  - world w. exact Hm.
  - destruct (truthy _); [|exact Hm]. world w. exact Hm.
  - unfold top_level, exec, detached, handleFile.
    destruct (validFileType file); simpl; [|world w; exact Hm].
    destruct (validFileSize file); simpl; [|world w; exact Hm].
    world w. exact Hm.
  - world w. exact Hm.
  - destruct (start_disabled w); [exact Hm|].
    destruct (_ <? _); [world w; exact Hm|].
    unfold launched.
    assert (H : muted h (sources (stopped (upd_state start_fields w))))
      by (apply muted_stopped; world w; exact Hm).
    revert H. generalize (stopped (upd_state start_fields w)).
    intros w' H. destruct w'. exact H.
  - destruct (transport_shown w); [|exact Hm].
    destruct (isPlaying w); rewrite transport_sources by auto; exact Hm.
  - destruct (transport_shown w); [|exact Hm]. apply muted_stopped, Hm.
  - destruct (replay_shown w); [|exact Hm].
    destruct (bound_buffer w) as [b|]; [|exact Hm].
    destruct (audioContextRef w) as [c|]; [|exact Hm].
    apply muted_played, Hm.
  - destruct (tasks w !! j) as [[text lang| | |]|]; try exact Hm.
    destruct o as [t|err]; [|world w; exact Hm].
    unfold speech_requested.
    destruct (ensured_fields (upd_state (translated_fields text t lang)
                (upd_tasks (fun l => <[j := Settled]> l) w)))
      as (_ & _ & _ & Hs & _).
    revert Hs. generalize (ensured (upd_state (translated_fields text t lang)
                (upd_tasks (fun l => <[j := Settled]> l) w))).
    intros w' Hs. destruct w'. world w. simpl in *. subst. exact Hm.
  - destruct (tasks w !! j) as [[|t c| |]|]; try exact Hm.
    destruct o as [b|err]; [|world w; exact Hm].
    apply muted_played. world w. exact Hm.
  - destruct (tasks w !! j) as [[| |file|]|]; try exact Hm.
    unfold top_level, exec, detached, after_extraction. js_unfold.
    destruct o as [extracted|err]; simpl.
    + destruct (MAX_INPUT_LENGTH <? length extracted); world w; exact Hm.
    + world w. exact Hm.
  - destruct (ended_sources k w) as [-> | ->]; [exact Hm|].
    apply muted_alter; [|exact Hm]. intros s Hs. exact Hs.
Qed.

Lemma muted_run evs w h : Inv w -> muted h (sources w) -> muted h (sources (run evs w)).
Proof.
  revert w. induction evs as [|ev evs IH]; intros w I Hm; [exact Hm|].
  simpl. apply IH; [apply step_inv, I|apply muted_step; assumption].
Qed.

Lemma ended_muted h w :
  muted h (sources w) ->
  step (Ended h) w = upd_sources (fun _ => sources (step (Ended h) w)) w.
Proof.
  intros (s & Hs & Hn). world w. simpl in *.
  unfold top_level, exec, dispatch_ended. js_unfold. simpl.
  rewrite Hs. destruct (src_started s && negb (src_ended s)); simpl; [|reflexivity].
  rewrite Hn. reflexivity.
Qed.

(** C6: [stopAudio] on a bound source first removes the source's [onended]
    handler and then stops it, in that order and before anything else, and so
    does [playAudio], which begins with [stopAudio].  The source is left
    without a handler and silent, and the ref is cleared.  Whatever happens
    afterwards, a late [ended] event for that source changes nothing but the
    source's own bookkeeping: the component's state, [isPlaying], [isPaused]
    and the refs are untouched. *)
Theorem stop_detaches_before_halting (evs evs' : list Event) (h : nat) :
  let w := run evs initial in
  audioSourceRef w = Some h ->
  let w1 := exec stopAudio w in
  (exists rest, devlog w1 = devlog w ++ SetOnended h None :: SourceStop h :: rest) /\
  (forall b c, audioContextRef w = Some c ->
     exists rest, devlog (exec (playAudio b c) w)
                  = devlog w ++ SetOnended h None :: SourceStop h :: rest) /\
  (exists s, sources w1 !! h = Some s /\ onended s = None /\ sounding s = false) /\
  audioSourceRef w1 = None /\
  let w2 := run evs' w1 in
  let w3 := step (Ended h) w2 in
  w3 = upd_sources (fun _ => sources w3) w2 /\
  isPlaying w3 = isPlaying w2 /\ isPaused w3 = isPaused w2 /\
  state w3 = state w2 /\ audioSourceRef w3 = audioSourceRef w2.
Proof.
  intros w Hh w1. pose proof (reachable_inv evs) as I. fold w in I.
  assert (E1 : w1 = stopped w).
  { subst w1. unfold exec. rewrite stopAudio_eq by apply audio_refs_bound, I.
    reflexivity. }
  assert (I1 : Inv w1) by (rewrite E1; apply inv_stopped, I).
  destruct I as [IA IP]. pose proof (inv_src w IA) as Hb. rewrite Hh in Hb.
  simpl in Hb. destruct (lookup_lt_is_Some_2 _ _ Hb) as [s Hs].
  assert (Hm : muted h (sources w1)).
  { rewrite E1, stopped_sources, Hh. exists (halted s).
    rewrite list_lookup_alter_eq, Hs. split; [reflexivity|].
    unfold halted. destruct (src_started s); reflexivity. }
  split; [|split; [|split; [|split]]].
  - rewrite E1, stopped_devlog, Hh. rewrite <- app_assoc. eexists. reflexivity.
  - intros b c Hc. rewrite exec_playAudio by (try split; assumption).
    unfold played.
    assert (Hr : resumed c (stopped w) = stopped w)
      by (unfold resumed; rewrite (stopped_not_suspended w c Hc); reflexivity).
    rewrite Hr.
    assert (Hd : exists rest, devlog (stopped w)
                   = devlog w ++ SetOnended h None :: SourceStop h :: rest)
      by (rewrite stopped_devlog, Hh, <- app_assoc; eexists; reflexivity).
    destruct Hd as [rest Hd]. revert Hd. generalize (stopped w).
    intros w' Hd. destruct w'. simpl in *. rewrite Hd.
    rewrite <- app_assoc. simpl. eexists. reflexivity.
  - rewrite E1, stopped_sources, Hh. exists (halted s).
    rewrite list_lookup_alter_eq, Hs.
    split; [reflexivity|]. split; [|apply sounding_halted].
    unfold halted. destruct (src_started s); reflexivity.
  - rewrite E1. destruct (stopped_fields w) as (_ & _ & _ & _ & _ & _ & H & _).
    exact H.
  - intros w2 w3.
    pose proof (muted_run evs' w1 h I1 Hm) as Hm2. fold w2 in Hm2.
    pose proof (ended_muted h w2 Hm2) as E3. fold w3 in E3.
    split; [exact E3|].
    rewrite E3. destruct w2. repeat split; reflexivity.
Qed.

Lemma stop_detaches_before_halting_witness :
  audioSourceRef shown_world = Some 0 /\
  isPlaying (step (Ended 0) (run [ClickReplay] (exec stopAudio shown_world))) = true.
Proof.
  split; [reflexivity|].
  pose proof (stop_detaches_before_halting
    [Input short_text; ClickStart; TranslationSettled 0 (Resolved [35831%N]);
     SpeechSettled 0 (Resolved (Buffer 7))] [ClickReplay] 0 eq_refl) as H.
  destruct H as (_ & _ & _ & _ & _ & H & _). refine (eq_trans H _). reflexivity.
Defined.

(** * Replay *)

(** C8: the replay control is there exactly when a decoded buffer is bound
    and playback is neither running nor paused; without the control a replay
    changes nothing; with it, a replay is [playAudio] on the bound buffer and
    the component's context, and neither collaborator is called nor any
    handler parked. *)
Theorem replay_is_start (evs : list Event) :
  let w := run evs initial in
  (replay_shown w = true <->
     (exists b, bound_buffer w = Some b) /\ isPlaying w = false /\ isPaused w = false) /\
  (replay_shown w = false -> step ClickReplay w = w) /\
  (forall b, replay_shown w = true -> bound_buffer w = Some b ->
     exists c, audioContextRef w = Some c /\
               handleReplay w = playAudio b c w /\
               step ClickReplay w = exec (playAudio b c) w /\
               calls (step ClickReplay w) = calls w /\
               tasks (step ClickReplay w) = tasks w /\
               state (step ClickReplay w) = state w).
Proof.
  intros w. pose proof (reachable_inv evs) as I. fold w in I.
  split; [|split].
  - unfold replay_shown, has_audio. split.
    + intros H. apply andb_true_iff in H as [Ha Hn].
      apply negb_true_iff, orb_false_elim in Hn as [Hp Hq].
      destruct (bound_buffer w) as [b|]; [|discriminate]. eauto.
    + intros ([b Hb] & Hp & Hq). rewrite Hb, Hp, Hq. reflexivity.
  - intros H. simpl. rewrite H. reflexivity.
  - intros b Hr Hb.
    assert (Ha : has_audio w = true) by (unfold has_audio; rewrite Hb; reflexivity).
    destruct (has_audio_ctx w I Ha) as (b' & c & Hb' & Hc).
    rewrite Hb in Hb'. injection Hb' as <-. exists c.
    pose proof (handleReplay_eq w b c I Hb Hc) as E.
    assert (Es : step ClickReplay w = played b c w).
    { simpl. rewrite Hr. apply top_level_normal, E. }
    destruct (played_fields b c w) as (Hs & Ht & Hcl & _).
    repeat split.
    + exact Hc.
    + rewrite E. symmetry. destruct I as [IA IP]. apply playAudio_eq.
      * apply audio_refs_bound, IA.
      * apply audio_ctx_bound; assumption.
    + rewrite Es. symmetry. apply exec_playAudio; assumption.
    + rewrite Es. exact Hcl.
    + rewrite Es. exact Ht.
    + rewrite Es. exact Hs.
Qed.

Lemma replay_is_start_witness :
  replay_shown shown_world = false /\
  step ClickReplay shown_world = shown_world /\
  replay_shown ended_world = true /\
  bound_buffer ended_world = Some (Buffer 7) /\
  exists c, audioContextRef ended_world = Some c /\
            handleReplay ended_world = playAudio (Buffer 7) c ended_world /\
            step ClickReplay ended_world = exec (playAudio (Buffer 7) c) ended_world /\
            calls (step ClickReplay ended_world) = calls ended_world /\
            tasks (step ClickReplay ended_world) = tasks ended_world /\
            state (step ClickReplay ended_world) = state ended_world.
Proof.
  split; [reflexivity|].
  split.
  - exact (proj1 (proj2 (replay_is_start
      [Input short_text; ClickStart; TranslationSettled 0 (Resolved [35831%N]);
       SpeechSettled 0 (Resolved (Buffer 7))])) eq_refl).
  - split; [reflexivity|]. split; [reflexivity|].
    exact (proj2 (proj2 (replay_is_start
      [Input short_text; ClickStart; TranslationSettled 0 (Resolved [35831%N]);
       SpeechSettled 0 (Resolved (Buffer 7)); Ended 0])) (Buffer 7) eq_refl eq_refl).
Defined.

Lemma cleanup_after_stop (w : World) :
  refs_bound w ->
  cleanup w = (cur <- read audioContextRef ;;
               match cur with
               | Some c => detached (ctx_close c)
               | None => ret tt
               end) (stopped w).
Proof. intros Hb. unfold cleanup. apply stopAudio_then, Hb. Qed.

(** C9 (as the code has it): the context is created on first use and only
    then: the mounted component never holds more than one, every context was
    created by one [new AudioContext], [getAudioContext] returns the same
    context on a second call and creates nothing then.  The cleanup stops
    the bound source and, when a context exists, calls [close()] on it: one
    cleanup closes the context with exactly one [close()] call and no error,
    and leaves no source sounding.  (The cleanup does not look at the
    context's state: nothing is said about running it again.) *)
Theorem context_lifecycle (evs : list Event) :
  let w := run evs initial in
  length (contexts w) <= 1 /\
  length (List.filter is_create_call (devlog w)) = length (contexts w) /\
  (audioContextRef w = None <-> contexts w = []) /\
  (exists c w1,
     getAudioContext w = (Normal c, w1) /\
     getAudioContext w1 = (Normal c, w1) /\
     length (contexts w1) = 1 /\
     (audioContextRef w <> None -> w1 = w)) /\
  close_calls w = 0 /\
  let w' := exec cleanup w in
  close_calls w' = length (contexts w) /\
  Forall (fun x => ctx_state x = Closed) (contexts w') /\
  length (contexts w') = length (contexts w) /\
  unhandled w' = [] /\
  sounding_sources w' = [] /\
  audioSourceRef w' = None.
Proof.
  intros w. pose proof (reachable_inv evs) as I. fold w in I.
  destruct I as [IA IP].
  pose proof (inv_ctx w IA) as Hctx. unfold ctx_singleton in Hctx.
  pose proof (inv_open w IA) as Hopen.
  split; [|split; [|split; [|split; [|split]]]].
  - destruct (audioContextRef w); [destruct Hctx as (_ & x & -> & _)|rewrite Hctx];
      simpl; lia.
  - exact (inv_created w IA).
  - destruct (audioContextRef w).
    + destruct Hctx as (_ & x & -> & _). split; discriminate.
    + split; [intros _; exact Hctx|reflexivity].
  - rewrite getAudioContext_eq. exists (the_ctx w), (ensured w).
    split; [reflexivity|]. rewrite getAudioContext_eq.
    destruct w as [st ex pl pa cr sr cs ss ts cl dl un]. simpl in *.
    unfold the_ctx, ensured. simpl. destruct cr as [c|]; simpl.
    + destruct Hctx as (-> & x & -> & _). repeat split; reflexivity.
    + subst cs. repeat split; try reflexivity. intros H. destruct (H eq_refl).
  - unfold close_calls. rewrite Hopen. reflexivity.
  - intros w'. 
    assert (IS : AudioInv (stopped w)) by (apply stopped_audio, IA).
    pose proof (stopped_silent w IA) as Hsil.
    destruct (stopped_fields w) as (_ & _ & _ & Hcr & _ & _ & Hsr & _).
    pose proof (stopped_length w) as Hlen.
    assert (E : w' = exec (cur <- read audioContextRef ;;
                           match cur with
                           | Some c => detached (ctx_close c)
                           | None => ret tt
                           end) (stopped w)).
    { subst w'. unfold exec. rewrite cleanup_after_stop
        by apply audio_refs_bound, IA. reflexivity. }
    rewrite E. clear E w'. revert IS Hsil Hcr Hsr Hlen.
    unfold sounding_sources, close_calls. generalize (stopped w).
    intros w1 [J1 J2 J3 J4 J5 J6] Hsil Hcr Hsr Hlen.
    destruct w1 as [st1 ex1 pl1 pa1 cr1 sr1 cs1 ss1 ts1 cl1 dl1 un1].
    unfold ctx_singleton in J1. simpl in *. unfold exec. js_unfold. simpl.
    destruct cr1 as [c|]; simpl.
    + destruct J1 as (-> & x & -> & Hx). simpl in *.
      destruct (ctx_state x) eqn:Ex; try congruence; simpl;
        rewrite List.filter_app, J5; simpl;
        repeat split; try assumption; try lia;
        repeat constructor.
    + subst cs1. rewrite J5. simpl in *.
      repeat split; try assumption; try lia; constructor.
Qed.

(** C9, as stated, fails where it promises that closing twice is harmless:
    the cleanup has no guard on the context's state, so running it a second
    time calls [close()] on the closed context again, and that call is
    rejected with an error nobody handles. *)
Lemma second_cleanup_closes_again :
  let w1 := exec cleanup shown_world in
  let w2 := exec cleanup w1 in
  close_calls w1 = 1 /\ unhandled w1 = [] /\
  close_calls w2 = 2 /\ unhandled w2 = [InvalidStateError] /\
  w2 <> w1.
Proof.
  vm_compute. repeat split; try reflexivity. intros H. discriminate H.
Qed.

Lemma context_lifecycle_witness :
  audioContextRef shown_world <> None /\
  close_calls (exec cleanup shown_world) = 1 /\
  unhandled (exec cleanup shown_world) = [].
Proof.
  split; [discriminate|].
  pose proof (context_lifecycle
    [Input short_text; ClickStart; TranslationSettled 0 (Resolved [35831%N]);
     SpeechSettled 0 (Resolved (Buffer 7))]) as H.
  destruct H as (_ & _ & _ & _ & _ & H1 & _ & _ & H2 & _).
  split; [refine (eq_trans H1 _); reflexivity|exact H2].
Defined.

(** * The transport flags follow the device *)

Lemma play_frame (w w' : World) :
  isPlaying w' = isPlaying w -> isPaused w' = isPaused w ->
  audioSourceRef w' = audioSourceRef w -> audioContextRef w' = audioContextRef w ->
  sources w' = sources w -> contexts w' = contexts w ->
  PlayInv w -> PlayInv w'.
Proof.
  intros H1 H2 H3 H4 H5 H6 [P1 P2 P3 P4 P5 P6 P7].
  constructor; unfold device_is, bound_source in *;
    rewrite ?H1, ?H2, ?H3, ?H4, ?H5, ?H6; assumption.
Qed.

Lemma initial_play : PlayInv initial.
Proof.
  constructor; unfold device_is, bound_source; simpl; try discriminate.
  - intros h s [H _]. discriminate.
  - intros _ _ h s [H _]. discriminate.
  - constructor.
Qed.

Lemma onended_halted s : onended (halted s) = None.
Proof. unfold halted. destruct (src_started s); reflexivity. Qed.

Lemma rate_alter st c (cs : list AudioContext) :
  Forall (fun x => sampleRate x = 24000%N) cs ->
  Forall (fun x => sampleRate x = 24000%N) (alter (set_ctx_state st) c cs).
Proof.
  intros H. apply Forall_lookup. intros i x Hi.
  destruct (decide (c = i)) as [->|Hne].
  - rewrite list_lookup_alter_eq in Hi. destruct (cs !! i) as [y|] eqn:E; [|discriminate].
    injection Hi as <-. simpl. exact (proj1 (Forall_lookup _ _) H i y E).
  - rewrite list_lookup_alter_ne in Hi by exact Hne.
    exact (proj1 (Forall_lookup _ _) H i x Hi).
Qed.

Lemma play_stopped w : PlayInv w -> PlayInv (stopped w).
Proof.
  intros [P1 P2 P3 P4 P5 P6 P7].
  destruct (stopped_fields w) as (_ & _ & _ & Hcr & _ & _ & Hsr & Hpl & Hpa).
  constructor; unfold device_is, bound_source; rewrite ?Hpl, ?Hpa, ?Hsr;
    try discriminate.
  - intros h s [H _]. discriminate.
  - intros h s Hs _. rewrite stopped_sources in Hs.
    destruct (audioSourceRef w) as [h0|] eqn:E.
    + destruct (decide (h0 = h)) as [->|Hne].
      * rewrite list_lookup_alter_eq in Hs.
        destruct (sources w !! h); [|discriminate]. injection Hs as <-.
        apply onended_halted.
      * rewrite list_lookup_alter_ne in Hs by exact Hne.
        apply (P3 h s Hs). congruence.
    + apply (P3 h s Hs). discriminate.
  - intros _ _ h s [H _]. discriminate.
  - rewrite stopped_contexts. destruct (audioContextRef w) as [c|]; [|exact P7].
    destruct (suspended_at c w); [apply rate_alter|]; exact P7.
Qed.

Lemma stopped_device w :
  AudioInv w -> audioContextRef w <> None -> device_is Running (stopped w).
Proof.
  intros IA Hc. pose proof (inv_ctx w IA) as H. unfold ctx_singleton in H.
  destruct (stopped_fields w) as (_ & _ & _ & Hcr & _).
  unfold device_is. rewrite Hcr, stopped_contexts.
  destruct (audioContextRef w) as [c|]; [|congruence].
  destruct H as (-> & x & Hx & Hopen). unfold suspended_at. rewrite Hx. simpl.
  destruct (ctx_state x) eqn:E; simpl.
  - eexists. repeat split; reflexivity.
  - exists x. repeat split; try reflexivity. exact E.
  - congruence.
Qed.

Lemma played_contexts b c w :
  audioContextRef w = Some c -> contexts (played b c w) = contexts (stopped w).
Proof.
  intros Hc. unfold played.
  assert (Hr : resumed c (stopped w) = stopped w)
    by (unfold resumed; rewrite (stopped_not_suspended w c Hc); reflexivity).
  rewrite Hr. generalize (stopped w). intros w'. destruct w'. reflexivity.
Qed.

Lemma play_played b c w :
  AudioInv w -> PlayInv w -> audioContextRef w = Some c -> PlayInv (played b c w).
Proof.
  intros IA P Hc. pose proof (play_stopped w P) as [_ _ S3 _ _ _ S7].
  assert (Hdev : device_is Running (stopped w))
    by (apply stopped_device; [exact IA|congruence]).
  destruct (stopped_fields w) as (_ & _ & _ & Hcr0 & _ & _ & Hsr0 & _).
  destruct (played_fields b c w) as (_ & _ & _ & Hcr & _ & _ & Hsr & Hpl & Hpa).
  pose proof (played_sources b c w) as Hss.
  pose proof (played_contexts b c w Hc) as Hcs.
  pose proof (stopped_length_sources w) as Hlen.
  assert (Hnew : sources (played b c w) !! length (sources w)
                 = Some (playing_source c b)).
  { rewrite Hss, <- Hlen. apply list_lookup_middle. reflexivity. }
  assert (Hd : device_is Running (played b c w)).
  { unfold device_is in *. rewrite Hcr, Hcs. rewrite Hcr0 in Hdev. exact Hdev. }
  constructor; unfold bound_source; rewrite ?Hpl, ?Hpa, ?Hsr; try discriminate.
  - reflexivity.
  - intros h s [Hh Hs]. injection Hh as <-. rewrite Hnew in Hs.
    injection Hs as <-. repeat split; reflexivity.
  - intros h s Hs Hne. rewrite Hss in Hs. apply lookup_app_Some in Hs.
    destruct Hs as [Hs|[Hge Hs]].
    + apply (S3 h s Hs). rewrite Hsr0. discriminate.
    + rewrite Hlen in Hge, Hs. apply list_lookup_singleton_Some in Hs.
      destruct Hs as [Hz _]. exfalso. apply Hne. f_equal. lia.
  - intros _. split; [exact Hd|].
    exists (length (sources w)), (playing_source c b).
    repeat split. exact Hnew.
  - rewrite Hcs. exact S7.
Qed.

Lemma play_ensured w : PlayInv w -> PlayInv (ensured w).
Proof.
  intros P. destruct (audioContextRef w) as [c|] eqn:Hc.
  - unfold ensured. rewrite Hc. exact P.
  - destruct P as [P1 P2 P3 P4 P5 P6 P7].
    assert (Hoff : isPlaying w = false /\ isPaused w = false).
    { split.
      - destruct (isPlaying w); [|reflexivity].
        destruct (P4 eq_refl) as [(x & H & _) _]. congruence.
      - destruct (isPaused w); [|reflexivity].
        destruct (P5 eq_refl) as [(x & H & _) _]. congruence. }
    destruct Hoff as [Hpl Hpa].
    destruct w as [st ex pl pa cr sr cs ss ts cl dl un].
    unfold ensured, device_is, bound_source in *. simpl in *. subst.
    constructor; unfold device_is, bound_source; simpl; try discriminate;
      try assumption.
    apply Forall_app. split; [exact P7|]. repeat constructor.
Qed.

Lemma play_handlePause w : AudioInv w -> PlayInv w -> PlayInv (top_level handlePause w).
Proof.
  intros [I1 _ _ _ _ _] [P1 P2 P3 P4 P5 P6 P7].
  destruct w as [st ex pl pa cr sr cs ss ts cl dl un].
  unfold ctx_singleton, device_is, bound_source in *. simpl in *.
  unfold top_level, exec, handlePause. js_unfold. simpl.
  destruct cr as [c|]; simpl;
    [|constructor; unfold device_is, bound_source; simpl; assumption].
  destruct I1 as (-> & x & -> & Hx).
  destruct pl; simpl;
    [|constructor; unfold device_is, bound_source; simpl; assumption].
  destruct (P4 eq_refl) as [_ Hb].
  destruct (ctx_state x) eqn:E; simpl; try congruence;
    constructor; unfold device_is, bound_source; simpl;
    try discriminate; try assumption; try reflexivity;
    try (intros _; split; [eexists; repeat split; reflexivity|exact Hb]);
    try (inversion P7; subst; repeat constructor; assumption).
Qed.

Lemma play_handleResume w : AudioInv w -> PlayInv w -> PlayInv (top_level handleResume w).
Proof.
  intros [I1 _ _ _ _ _] [P1 P2 P3 P4 P5 P6 P7].
  destruct w as [st ex pl pa cr sr cs ss ts cl dl un].
  unfold ctx_singleton, device_is, bound_source in *. simpl in *.
  unfold top_level, exec, handleResume. js_unfold. simpl.
  destruct cr as [c|]; simpl;
    [|constructor; unfold device_is, bound_source; simpl; assumption].
  destruct I1 as (-> & x & -> & Hx).
  destruct pa; simpl;
    [|constructor; unfold device_is, bound_source; simpl; assumption].
  destruct (P5 eq_refl) as [_ Hb].
  destruct (ctx_state x) eqn:E; simpl; try congruence;
    constructor; unfold device_is, bound_source; simpl;
    try discriminate; try assumption; try reflexivity;
    try (intros _; split; [eexists; repeat split; reflexivity|exact Hb]);
    try (inversion P7; subst; repeat constructor; assumption).
Qed.

Lemma lookup_put_ended k h (ss : list SourceNode) s' :
  alter put_ended k ss !! h = Some s' ->
  exists s, ss !! h = Some s /\ onended s' = onended s /\
            src_started s' = src_started s /\ src_stopped s' = src_stopped s /\
            (h <> k -> s' = s) /\ (h = k -> src_ended s' = true).
Proof.
  intros H. destruct (decide (k = h)) as [->|Hne].
  - rewrite list_lookup_alter_eq in H. destruct (ss !! h) as [s|]; [|discriminate].
    injection H as <-. exists s. repeat split; try reflexivity. congruence.
  - rewrite list_lookup_alter_ne in H by exact Hne. exists s'.
    repeat split; try assumption; try reflexivity. congruence.
Qed.

Lemma play_ended_quiet k w :
  PlayInv w -> audioSourceRef w <> Some k ->
  PlayInv (upd_sources (alter put_ended k) w).
Proof.
  intros [P1 P2 P3 P4 P5 P6 P7] Hk.
  destruct w as [st ex pl pa cr sr cs ss ts cl dl un].
  unfold device_is, bound_source in *. simpl in *.
  assert (Hb : forall h s', sr = Some h -> alter put_ended k ss !! h = Some s' ->
                            ss !! h = Some s').
  { intros h s' Hh Hs. rewrite list_lookup_alter_ne in Hs; [exact Hs|congruence]. }
  constructor; unfold device_is, bound_source; simpl; try assumption.
  - intros h s' [Hh Hs]. apply (P2 h s'). split; [exact Hh|exact (Hb _ _ Hh Hs)].
  - intros h s' Hs Hne. destruct (lookup_put_ended _ _ _ _ Hs) as (s & Hs0 & -> & _).
    exact (P3 h s Hs0 Hne).
  - intros Hpl. destruct (P4 Hpl) as [Hd (h & s & [Hh Hs] & He)].
    split; [exact Hd|]. exists h, s. repeat split; try assumption.
    rewrite list_lookup_alter_ne; [exact Hs|congruence].
  - intros Hpa. destruct (P5 Hpa) as [Hd (h & s & [Hh Hs] & He)].
    split; [exact Hd|]. exists h, s. repeat split; try assumption.
    rewrite list_lookup_alter_ne; [exact Hs|congruence].
  - intros Hpl Hpa h s' [Hh Hs]. apply (P6 Hpl Hpa h s').
    split; [exact Hh|exact (Hb _ _ Hh Hs)].
Qed.

Lemma play_ended_bound k w :
  PlayInv w -> audioSourceRef w = Some k ->
  PlayInv (upd_isPaused false (upd_isPlaying false (upd_sources (alter put_ended k) w))).
Proof.
  intros [P1 P2 P3 P4 P5 P6 P7] Hk.
  destruct w as [st ex pl pa cr sr cs ss ts cl dl un].
  unfold device_is, bound_source in *. simpl in *. subst sr.
  constructor; unfold device_is, bound_source; simpl; try discriminate;
    try assumption.
  - intros h s' [Hh Hs]. destruct (lookup_put_ended _ _ _ _ Hs) as (s & Hs0 & -> & -> & -> & _).
    apply (P2 h s). split; assumption.
  - intros h s' Hs Hne. destruct (lookup_put_ended _ _ _ _ Hs) as (s & Hs0 & -> & _).
    exact (P3 h s Hs0 Hne).
  - intros _ _ h s' [Hh Hs]. injection Hh as <-.
    destruct (lookup_put_ended _ _ _ _ Hs) as (s & _ & _ & _ & _ & _ & He).
    exact (He eq_refl).
Qed.

Lemma dispatch_ended_cases k w :
  PlayInv w ->
  top_level (dispatch_ended k) w = w \/
  (audioSourceRef w <> Some k /\
   top_level (dispatch_ended k) w = upd_sources (alter put_ended k) w) \/
  (audioSourceRef w = Some k /\
   top_level (dispatch_ended k) w
   = upd_isPaused false (upd_isPlaying false (upd_sources (alter put_ended k) w))).
Proof.
  intros [P1 P2 P3 P4 P5 P6 P7].
  destruct w as [st ex pl pa cr sr cs ss ts cl dl un].
  unfold bound_source in *. simpl in *.
  unfold top_level, exec, dispatch_ended, run_handler. js_unfold. simpl.
  destruct (ss !! k) as [s|] eqn:Hs; simpl; [|left; reflexivity].
  destruct (src_started s && negb (src_ended s)); simpl; [|left; reflexivity].
  destruct (onended s) as [[]|] eqn:Ho; right.
  - right. split; [|reflexivity].
    destruct (decide (sr = Some k)) as [E|Hne]; [exact E|].
    rewrite (P3 k s Hs Hne) in Ho. discriminate.
  - left. split; [|reflexivity].
    intros E. destruct (P2 k s (conj E Hs)) as (Ho' & _). congruence.
Qed.

Lemma play_dispatch_ended k w : PlayInv w -> PlayInv (top_level (dispatch_ended k) w).
Proof.
  intros P. destruct (dispatch_ended_cases k w P) as [-> | [[Hk ->] | [Hk ->]]].
  - exact P.
  - apply play_ended_quiet; assumption.
  - apply play_ended_bound; assumption.
Qed.

Lemma play_upd_state f w : PlayInv w -> PlayInv (upd_state f w).
Proof. apply play_frame; destruct w; reflexivity. Qed.
Lemma play_upd_tasks f w : PlayInv w -> PlayInv (upd_tasks f w).
Proof. apply play_frame; destruct w; reflexivity. Qed.
Lemma play_upd_calls f w : PlayInv w -> PlayInv (upd_calls f w).
Proof. apply play_frame; destruct w; reflexivity. Qed.
Lemma play_upd_isExtracting v w : PlayInv w -> PlayInv (upd_isExtracting v w).
Proof. apply play_frame; destruct w; reflexivity. Qed.

Lemma play_step ev w : Inv w -> PlayInv w -> PlayInv (step ev w).
Proof.
  intros I P. rewrite step_spec_eq by exact I. destruct I as [IA IP].
  destruct ev as [v| |file|lang| | | | |id o|id o|id o|k]; simpl.
  - apply play_upd_state, P.
  - destruct (truthy _); [apply play_upd_state, P|exact P].
  - unfold top_level, exec, detached, handleFile.
    destruct (validFileType file); simpl; [|apply play_upd_state, P].
    destruct (validFileSize file); simpl; [|apply play_upd_state, P].
    apply play_upd_tasks, play_upd_calls, play_upd_state, play_upd_isExtracting, P.
  - apply play_upd_state, P.
  - destruct (start_disabled w); [exact P|].
    destruct (_ <? _); [apply play_upd_state, P|].
    apply play_upd_tasks, play_upd_calls, play_stopped, play_upd_state, P.
  - destruct (transport_shown w); [|exact P].
    destruct (isPlaying w); [apply play_handlePause|apply play_handleResume];
      assumption.
  - destruct (transport_shown w); [|exact P]. apply play_stopped, P.
  - destruct (replay_shown w); [|exact P].
    destruct (bound_buffer w) as [b|]; [|exact P].
    destruct (audioContextRef w) as [c|] eqn:Hc; [|exact P].
    apply play_played; assumption.
  - destruct (tasks w !! id) as [[text lang| | |]|]; try exact P.
    destruct o as [t|err].
    + apply play_upd_tasks, play_upd_calls, play_ensured, play_upd_state,
        play_upd_tasks, P.
    + apply play_upd_state, play_upd_tasks, P.
  - destruct (tasks w !! id) as [[|t c| |]|] eqn:Hid; try exact P.
    destruct o as [b|err].
    + apply play_played.
      * apply audio_upd_state, audio_upd_tasks, IA.
      * apply play_upd_state, play_upd_tasks, P.
      * pose proof (inv_speech_ctx w IP id t c Hid) as Hc. destruct w. exact Hc.
    + apply play_upd_state, play_upd_tasks, P.
  - destruct (tasks w !! id) as [[| |file|]|]; try exact P.
    unfold top_level, exec, detached, after_extraction. js_unfold.
    destruct o as [extracted|err]; simpl.
    + destruct (MAX_INPUT_LENGTH <? length extracted);
        apply play_upd_isExtracting, play_upd_state, play_upd_tasks, P.
    + apply play_upd_isExtracting, play_upd_state, play_upd_tasks, P.
  - apply play_dispatch_ended, P.
Qed.

Lemma reachable_play evs : PlayInv (run evs initial).
Proof.
  assert (H : forall w, Inv w -> PlayInv w -> PlayInv (run evs w)).
  { induction evs as [|ev evs IH]; intros w I P; [exact P|].
    simpl. apply IH; [apply step_inv, I|apply play_step; assumption]. }
  apply H; [apply initial_inv|apply initial_play].
Qed.

(** * The processing flag *)









(** * What the invariants say to the operator *)



Lemma idle_silent w :
  AudioInv w -> PlayInv w -> isPlaying w = false -> isPaused w = false ->
  sounding_sources w = [].
Proof.
  intros IA P Hpl Hpa. apply filter_none. intros i s Hi.
  destruct (sounding s) eqn:E; [|reflexivity].
  pose proof (inv_excl w IA i s Hi E) as Hb.
  pose proof (play_off w P Hpl Hpa i s (conj Hb Hi)) as He.
  unfold sounding in E. rewrite He in E. rewrite andb_false_r in E. discriminate.
Qed.






(** * Blank input *)

Lemma trim_start_blank s : blank s = true -> trim_start s = [].
Proof.
  induction s as [|c s IH]; simpl; [reflexivity|].
  destruct (is_js_whitespace c); [exact IH|discriminate].
Qed.

Lemma trim_start_nil s : trim_start s = [] -> blank s = true.
Proof.
  induction s as [|c s IH]; simpl; [reflexivity|].
  destruct (is_js_whitespace c); [exact IH|discriminate].
Qed.

Lemma trim_start_suffix s :
  exists pre, s = pre ++ trim_start s /\ blank pre = true.
Proof.
  induction s as [|c s (pre & Hs & Hp)]; simpl.
  - exists []. split; reflexivity.
  - destruct (is_js_whitespace c) eqn:E.
    + exists (c :: pre). simpl. rewrite E, Hp. split; [f_equal; exact Hs|reflexivity].
    + exists []. split; reflexivity.
Qed.

Lemma blank_app s1 s2 : blank (s1 ++ s2) = blank s1 && blank s2.
Proof. apply forallb_app. Qed.

Lemma blank_rev s : blank (rev s) = blank s.
Proof.
  induction s as [|c s IH]; simpl; [reflexivity|].
  rewrite blank_app, IH. simpl. rewrite andb_true_r. apply andb_comm.
Qed.

Lemma trim_blank s : truthy (trim s) = negb (blank s).
Proof.
  unfold trim. destruct (blank s) eqn:E.
  - rewrite (trim_start_blank s E). reflexivity.
  - destruct (trim_start s) as [|c t] eqn:Ht.
    + rewrite (trim_start_nil s Ht) in E. discriminate.
    + destruct (trim_start (rev (c :: t))) as [|d u] eqn:Hr.
      * apply trim_start_nil in Hr. rewrite blank_rev in Hr.
        destruct (trim_start_suffix s) as (pre & Hs & Hp).
        rewrite Hs, blank_app, Hp, Ht, Hr in E. discriminate.
      * simpl. destruct (rev u ++ [d]) eqn:Hx; [|reflexivity].
        destruct (rev u); discriminate.
Qed.

(** X1: a text made of white space only (the empty text included) never
    starts the pipeline.  The start control is disabled for it, and
    [handleTranslateAndSpeak] itself only sets the empty-input notice: the
    playback is not stopped, nothing is called and nothing is parked.  For a
    text with any other character the control is disabled only while the
    component is processing or extracting. *)
Theorem blank_input_is_refused (w : World) :
  (blank (inputText (state w)) = true ->
     start_disabled w = true /\
     step ClickStart w = w /\
     handleTranslateAndSpeak w
     = (Normal tt, upd_state (with_error (Some NoticeEmptyInput)) w)) /\
  (blank (inputText (state w)) = false ->
     start_disabled w = isProcessing (state w) || isExtracting w).
Proof.
  split; intros Hb.
  - assert (Hd : start_disabled w = true).
    { unfold start_disabled. rewrite trim_blank, Hb. simpl. apply orb_true_r. }
    split; [exact Hd|]. split; [simpl; rewrite Hd; reflexivity|].
    unfold handleTranslateAndSpeak, bind, read. rewrite trim_blank, Hb. reflexivity.
  - unfold start_disabled. rewrite trim_blank, Hb. simpl. apply orb_false_r.
Qed.

Lemma blank_input_is_refused_witness :
  blank (inputText (state (step (Input [32; 10; 12288]%N) initial))) = true /\
  step ClickStart (step (Input [32; 10; 12288]%N) initial)
  = step (Input [32; 10; 12288]%N) initial /\
  blank (inputText (state (step (Input [32; 65]%N) initial))) = false /\
  start_disabled (step (Input [32; 65]%N) initial) = false.
Proof.
  split; [reflexivity|]. split.
  - exact (proj1 (proj2 (proj1 (blank_input_is_refused
             (step (Input [32; 10; 12288]%N) initial)) eq_refl))).
  - split; [reflexivity|].
    exact (proj2 (blank_input_is_refused (step (Input [32; 65]%N) initial)) eq_refl).
Defined.

(** * Transport round trips *)



(** X10: the natural end of the playing source.  When the source the ref
    points at plays to its end, both transport flags are cleared and no
    source sounds; the ref and the published result are kept, so with a
    decoded buffer bound the transport controls give way to the replay
    control. *)
Theorem natural_end_offers_replay (evs : list Event) (h : nat) :
  let w := run evs initial in
  isPlaying w = true -> audioSourceRef w = Some h ->
  let w' := step (Ended h) w in
  isPlaying w' = false /\ isPaused w' = false /\
  sounding_sources w' = [] /\
  audioSourceRef w' = Some h /\ state w' = state w /\ calls w' = calls w /\
  (has_audio w = true -> transport_shown w' = false /\ replay_shown w' = true).
Proof.
  intros w Hpl Hh w'. destruct (reachable_inv evs) as [IA IP]. fold w in IA, IP.
  pose proof (reachable_play evs) as P. fold w in P.
  assert (I' : Inv w') by (apply step_inv; split; assumption).
  assert (P' : PlayInv w') by (apply play_step; [split|]; assumption).
  destruct (play_on w P Hpl) as [_ (h' & s & [Hh' Hs] & He)].
  rewrite Hh in Hh'. injection Hh' as <-.
  destruct (play_bound w P h s (conj Hh Hs)) as (Ho & Hst & _).
  assert (E : w' = upd_isPaused false (upd_isPlaying false
                     (upd_sources (alter put_ended h) w))).
  { subst w'. simpl. destruct w as [st ex pl pa cr sr cs ss ts cl dl un].
    simpl in *. unfold top_level, exec, dispatch_ended, run_handler. js_unfold.
    simpl. rewrite Hs, Hst, He, Ho. reflexivity. }
  assert (Hpl' : isPlaying w' = false) by (rewrite E; destruct w; reflexivity).
  assert (Hpa' : isPaused w' = false) by (rewrite E; destruct w; reflexivity).
  repeat split; try assumption.
  - apply idle_silent; [exact (proj1 I')| |assumption|assumption]. exact P'.
  - rewrite E. destruct w. exact Hh.
  - rewrite E. destruct w. reflexivity.
  - rewrite E. destruct w. reflexivity.
  - unfold transport_shown. rewrite Hpl', Hpa'. apply andb_false_r.
  - unfold replay_shown. rewrite Hpl', Hpa'.
    assert (Ha : has_audio w' = has_audio w) by (rewrite E; destruct w; reflexivity).
    rewrite Ha, H. reflexivity.
Qed.

Lemma natural_end_offers_replay_witness :
  isPlaying (run playing_events initial) = true /\
  audioSourceRef (run playing_events initial) = Some 0 /\
  has_audio (run playing_events initial) = true /\
  replay_shown (step (Ended 0) (run playing_events initial)) = true.
Proof.
  split; [reflexivity|]. split; [reflexivity|]. split; [reflexivity|].
  pose proof (natural_end_offers_replay playing_events 0 eq_refl eq_refl) as H.
  destruct H as (_ & _ & _ & _ & _ & _ & H). exact (proj2 (H eq_refl)).
Defined.



(** * What reaches the collaborators *)

Lemma calls_snoc (cl : list Call) (c : Call) :
  forallb call_ok cl = true -> call_ok c = true -> forallb call_ok (cl ++ [c]) = true.
Proof. intros H1 H2. rewrite forallb_app, H1. simpl. rewrite H2. reflexivity. Qed.

Lemma calls_step ev w :
  Inv w -> forallb call_ok (calls w) = true ->
  forallb call_ok (calls (step ev w)) = true.
Proof.
  intros I H. rewrite step_spec_eq by exact I.
  destruct ev as [v| |file|lang| | | | |id o|id o|id o|k]; simpl.
  - destruct w; exact H.
  - destruct (truthy _); destruct w; exact H.
  - unfold top_level, exec, detached, handleFile.
    destruct (validFileType file) eqn:Et; simpl; [|destruct w; exact H].
    destruct (validFileSize file) eqn:Es; simpl; [|destruct w; exact H].
    destruct w. simpl in *. apply calls_snoc; [exact H|].
    simpl. rewrite Et, Es. reflexivity.
  - destruct w; exact H.
  - destruct (start_disabled w) eqn:Hd; [exact H|].
    destruct (Nat.ltb_spec MAX_INPUT_LENGTH (length (inputText (state w))))
      as [Hlong|Hshort]; [destruct w; exact H|].
    destruct (launched_fields w) as (_ & _ & ->).
    apply calls_snoc; [exact H|]. simpl.
    unfold start_disabled in Hd. apply orb_false_elim in Hd as [_ Htrim].
    apply negb_false_iff in Htrim. rewrite Htrim. simpl.
    apply Nat.leb_le. exact Hshort.
  - destruct (transport_shown w); [|exact H].
    destruct (isPlaying w).
    + destruct (transport_frame handlePause w) as (_ & _ & -> & _); [auto|exact H].
    + destruct (transport_frame handleResume w) as (_ & _ & -> & _); [auto|exact H].
  - destruct (transport_shown w); [|exact H].
    destruct (stopped_fields w) as (_ & _ & -> & _). exact H.
  - destruct (replay_shown w); [|exact H].
    destruct (bound_buffer w) as [b|]; [|exact H].
    destruct (audioContextRef w) as [c|]; [|exact H].
    destruct (played_fields b c w) as (_ & _ & -> & _). exact H.
  - destruct (tasks w !! id) as [[text lang| | |]|]; try exact H.
    destruct o as [t|err]; [|destruct w; exact H].
    destruct (speech_requested_fields id text lang t w) as (_ & _ & ->).
    apply calls_snoc; [exact H|reflexivity].
  - destruct (tasks w !! id) as [[|t c| |]|]; try exact H.
    destruct o as [b|err]; [|destruct w; exact H].
    destruct (played_fields b c (upd_state (audio_fields b)
                (upd_tasks (fun l => <[id := Settled]> l) w))) as (_ & _ & -> & _).
    destruct w; exact H.
  - destruct (tasks w !! id) as [[| |file|]|]; try exact H.
    unfold top_level, exec, detached, after_extraction. js_unfold.
    destruct o as [extracted|err]; simpl.
    + destruct (MAX_INPUT_LENGTH <? length extracted); destruct w; exact H.
    + destruct w; exact H.
  - destruct (transport_frame (dispatch_ended k) w) as (_ & _ & -> & _); [eauto|exact H].
Qed.

(** X5: nothing gets past the guards.  In every state the mounted component
    can reach, every text that was sent to the translation service has a
    character other than white space and is at most [MAX_INPUT_LENGTH] code
    units long, and every file that was sent to text extraction had passed
    both the type check and the size check. *)
Theorem only_validated_input_is_sent (evs : list Event) :
  forallb call_ok (calls (run evs initial)) = true.
Proof.
  assert (H : forall w, Inv w -> forallb call_ok (calls w) = true ->
                        forallb call_ok (calls (run evs w)) = true).
  { induction evs as [|ev evs IH]; intros w I Hc; [exact Hc|].
    simpl. apply IH; [apply step_inv, I|apply calls_step; assumption]. }
  apply H; [apply initial_inv|reflexivity].
Qed.

(** X4: an invocation that succeeds.  From any reachable state in which the
    start control is enabled and the text is within the limit, a click on
    start followed by a successful translation and a successful synthesis
    sends the text and the language as they were at the click, then the
    translation, publishes the complete result, clears the processing flag
    and the notice, and plays the decoded buffer by itself: [isPlaying] is
    set and exactly the new source sounds. *)
Theorem successful_run_plays (evs : list Event) (t : jsstring) (b : AudioBuffer) :
  let w := run evs initial in
  start_disabled w = false ->
  length (inputText (state w)) <= MAX_INPUT_LENGTH ->
  let id := length (tasks w) in
  let w3 := run [ClickStart; TranslationSettled id (Resolved t);
                 SpeechSettled id (Resolved b)] w in
  result (state w3)
  = Some {| originalText := inputText (state w); translatedText := t;
            targetLanguage := selectedLanguage (state w);
            audioBuffer := Some b |} /\
  isProcessing (state w3) = false /\ error (state w3) = None /\
  calls w3 = calls w ++ [TranslateSafetyText (inputText (state w))
                           (selectedLanguage (state w));
                         GenerateSpeech t 0] /\
  isPlaying w3 = true /\ isPaused w3 = false /\
  sounding_sources w3 = [playing_source 0 b] /\
  runs_in_flight w3 = 0.
Proof.
  intros w Hd Hlen id w3. pose proof (reachable_inv evs) as I. fold w in I.
  set (text := inputText (state w)). set (lang := selectedLanguage (state w)).
  assert (E1 : step ClickStart w = launched w).
  { rewrite step_spec_eq by exact I. simpl. rewrite Hd.
    destruct (Nat.ltb_spec MAX_INPUT_LENGTH (length (inputText (state w))));
      [lia|reflexivity]. }
  assert (I1 : Inv (launched w)) by (rewrite <- E1; apply step_inv, I).
  destruct (launched_fields w) as (Ht1 & Hs1 & Hc1).
  assert (Hid1 : tasks (launched w) !! id = Some (AwaitTranslation text lang)).
  { rewrite Ht1. apply list_lookup_middle. reflexivity. }
  assert (E2 : step (TranslationSettled id (Resolved t)) (launched w)
               = speech_requested id text lang t (launched w)).
  { rewrite step_spec_eq by exact I1. simpl. rewrite Hid1. reflexivity. }
  set (w2 := speech_requested id text lang t (launched w)) in *.
  assert (I2 : Inv w2) by (rewrite <- E2; apply step_inv, I1).
  destruct (speech_requested_fields id text lang t (launched w)) as (Ht2 & Hs2 & Hc2).
  fold w2 in Ht2, Hs2, Hc2.
  assert (Hid2 : tasks w2 !! id = Some (AwaitSpeech t (the_ctx (launched w)))).
  { rewrite Ht2. apply list_lookup_insert_eq. rewrite length_insert.
    exact (lookup_lt_Some _ _ _ Hid1). }
  assert (Hctx : audioContextRef w2 = Some (the_ctx (launched w)))
    by (exact (inv_speech_ctx w2 (proj2 I2) _ _ _ Hid2)).
  assert (Hc0 : the_ctx (launched w) = 0).
  { pose proof (inv_ctx w2 (proj1 I2)) as H. unfold ctx_singleton in H.
    rewrite Hctx in H. exact (proj1 H). }
  rewrite Hc0 in *.
  set (w2' := upd_state (audio_fields b)
                (upd_tasks (fun l => <[id := Settled]> l) w2)).
  assert (E3 : step (SpeechSettled id (Resolved b)) w2 = played b 0 w2').
  { rewrite step_spec_eq by exact I2. simpl. rewrite Hid2. reflexivity. }
  assert (Ew : w3 = played b 0 w2').
  { unfold w3, run. cbn [fold_left]. rewrite E1, E2, E3. reflexivity. }
  assert (I3 : Inv w3) by (rewrite Ew, <- E3; apply step_inv, I2).
  destruct (played_fields b 0 w2') as (Hs3 & _ & Hc3 & _ & _ & _ & _ & Hpl3 & Hpa3).
  rewrite <- Ew in Hs3, Hc3, Hpl3, Hpa3.
  assert (Hst : state w2' = audio_fields b (state w2)) by (destruct w2; reflexivity).
  assert (Hcl : calls w2' = calls w2) by (destruct w2; reflexivity).
  assert (Hp3 : isProcessing (state w3) = false) by (rewrite Hs3, Hst; reflexivity).
  repeat split; try assumption.
  - rewrite Hs3, Hst, Hs2, Hs1. reflexivity.
  - rewrite Hs3, Hst, Hs2, Hs1. reflexivity.
  - rewrite Hc3, Hcl, Hc2, Hc1, <- app_assoc. reflexivity.
  - rewrite Ew. apply played_sounding.
    apply audio_upd_state, audio_upd_tasks. exact (proj1 I2).
  - exact (inv_proc w3 (proj2 I3) Hp3).
Qed.

Lemma successful_run_plays_witness :
  start_disabled (step (Input [50504; 51204]%N) initial) = false /\
  sounding_sources
    (run [ClickStart; TranslationSettled 0 (Resolved [35831%N]);
          SpeechSettled 0 (Resolved (Buffer 3))]
       (step (Input [50504; 51204]%N) initial))
  = [playing_source 0 (Buffer 3)].
Proof.
  split; [reflexivity|].
  assert (Hl : length (inputText (state (run [Input [50504; 51204]%N] initial)))
               <= MAX_INPUT_LENGTH)
    by (apply Nat.leb_le; vm_compute; reflexivity).
  pose proof (successful_run_plays [Input [50504; 51204]%N] [35831%N] (Buffer 3)
                eq_refl Hl) as H.
  destruct H as (_ & _ & _ & _ & _ & _ & H & _). exact H.
Defined.

(** X6: an uploaded text can always be started.  When an extraction settles
    with a text whose first [MAX_INPUT_LENGTH] code units are not all white
    space, and no invocation is being processed, the staged text is those
    first [MAX_INPUT_LENGTH] code units (the whole text when it is shorter),
    the start control is enabled, and a click on it sends exactly the staged
    text with the selected language: the cut made at upload is never refused
    by the length check at start. *)
Theorem upload_then_start (evs : list Event) (id : nat) (file : File)
    (extracted : jsstring) :
  let w := run evs initial in
  tasks w !! id = Some (AwaitExtraction file) ->
  isProcessing (state w) = false ->
  blank (slice0 MAX_INPUT_LENGTH extracted) = false ->
  let w1 := step (ExtractionSettled id (Resolved extracted)) w in
  let w2 := step ClickStart w1 in
  inputText (state w1) = slice0 MAX_INPUT_LENGTH extracted /\
  isExtracting w1 = false /\ start_disabled w1 = false /\
  calls w2 = calls w ++ [TranslateSafetyText (slice0 MAX_INPUT_LENGTH extracted)
                           (selectedLanguage (state w))] /\
  isProcessing (state w2) = true /\ error (state w2) = None /\
  result (state w2) = None.
Proof.
  intros w Hid Hp Hb w1 w2. pose proof (reachable_inv evs) as I. fold w in I.
  assert (I1 : Inv w1) by (apply step_inv, I).
  assert (F : inputText (state w1) = slice0 MAX_INPUT_LENGTH extracted /\
              isExtracting w1 = false /\
              isProcessing (state w1) = false /\
              selectedLanguage (state w1) = selectedLanguage (state w) /\
              calls w1 = calls w).
  { subst w1. simpl. rewrite Hid.
    unfold top_level, exec, detached, after_extraction. js_unfold.
    destruct (MAX_INPUT_LENGTH <? length extracted) eqn:El.
    - destruct w. repeat split; try reflexivity. exact Hp.
    - apply Nat.ltb_ge in El.
      assert (Hx : extracted = slice0 MAX_INPUT_LENGTH extracted)
        by (unfold slice0; symmetry; apply firstn_all2; exact El).
      destruct w. repeat split; try reflexivity; [exact Hx|exact Hp]. }
  destruct F as (Hin & Hex & Hp1 & Hlang & Hcl).
  assert (Hd : start_disabled w1 = false).
  { unfold start_disabled. rewrite Hp1, Hex, Hin, trim_blank, Hb. reflexivity. }
  assert (Hlen : length (inputText (state w1)) <= MAX_INPUT_LENGTH).
  { rewrite Hin. unfold slice0. rewrite List.length_firstn. lia. }
  assert (E2 : w2 = launched w1).
  { subst w2. rewrite step_spec_eq by exact I1. simpl. rewrite Hd.
    destruct (Nat.ltb_spec MAX_INPUT_LENGTH (length (inputText (state w1))));
      [lia|reflexivity]. }
  destruct (launched_fields w1) as (_ & Hs2 & Hc2). rewrite <- E2 in Hs2, Hc2.
  repeat split; try assumption.
  - rewrite Hc2, Hcl, Hin, Hlang. reflexivity.
  - rewrite Hs2. reflexivity.
  - rewrite Hs2. reflexivity.
  - rewrite Hs2. reflexivity.
Qed.

Lemma upload_then_start_witness :
  tasks (run [ChooseFile a_file] initial) !! 0 = Some (AwaitExtraction a_file) /\
  MAX_INPUT_LENGTH < length oversized_text /\
  calls (step ClickStart
           (step (ExtractionSettled 0 (Resolved oversized_text))
              (run [ChooseFile a_file] initial)))
  = [ExtractTextFromFile a_file;
     TranslateSafetyText (slice0 MAX_INPUT_LENGTH oversized_text) CHINESE].
Proof.
  split; [reflexivity|].
  split; [apply Nat.ltb_lt; vm_compute; reflexivity|].
  assert (Hb : blank (slice0 MAX_INPUT_LENGTH oversized_text) = false)
    by (vm_compute; reflexivity).
  pose proof (upload_then_start [ChooseFile a_file] 0 a_file oversized_text
                eq_refl eq_refl Hb) as H.
  destruct H as (_ & _ & _ & H & _). exact H.
Defined.

(** * Playback after the result is gone *)




